(** * express-plus: mount ledger, registry composition and verb dispatcher

  A shallow embedding of [src/utils.ts] (enhanceHttpMethods, registerMount,
  combineRegistries), of the [use] and [generateOpenAPIDocument] overrides
  installed by [expressPlus] and of the [use] override installed by
  [routerPlus], together with the properties of the specification that
  concern them. *)

From Stdlib Require Import ZArith Ascii Bool Lia DecimalString.
From stdpp Require Import base list strings.

(** ** JavaScript string primitives used by the sources *)

Module JsString.

(** [s.startsWith(p)] *)
Definition startsWith (s p : string) : bool := String.prefix p s.

(** [s.endsWith(p)]: some suffix of [s] is [p]. *)
Fixpoint endsWith (s p : string) : bool :=
  String.eqb s p ||
  match s with
  | EmptyString => false
  | String _ s' => endsWith s' p
  end.

(** [s.slice(0, -1)]: all of [s] but its last character. *)
Fixpoint slice_0_neg1 (s : string) : string :=
  match s with
  | EmptyString => EmptyString
  | String c s' =>
      match s' with
      | EmptyString => EmptyString
      | String _ _ => String c (slice_0_neg1 s')
      end
  end.

(** [s.substring(1)] *)
Definition substring_1 (s : string) : string :=
  match s with
  | EmptyString => EmptyString
  | String _ s' => s'
  end.

(** [s.includes("//")] *)
Fixpoint hasDoubleSlash (s : string) : bool :=
  match s with
  | EmptyString => false
  | String c s' =>
      (Ascii.eqb c "/"%char && startsWith s' "/") || hasDoubleSlash s'
  end.

End JsString.

(** ** The mount ledger ([mountRegistry], [registerMount]) *)

Module MountLedger.
Import JsString.

(** [interface MountInfo { path: string; registry: any }]; the registry is
    whatever the caller hands over, hence the type parameter. *)
Record MountInfo (R : Type) : Type := mkMountInfo
  { path : string;
    registry : R }.
Arguments mkMountInfo {R} _ _.
Arguments path {R} _.
Arguments registry {R} _.

(** The value of the local [normalizedPath] of [registerMount] when the
    entry is pushed. *)
Definition normalizedPath (mountPath : string) : string :=
  let normalizedPath := mountPath in
  let normalizedPath :=
    if negb (startsWith normalizedPath "/")
    then "/" +:+ normalizedPath
    else normalizedPath in
  let normalizedPath :=
    if endsWith normalizedPath "/" && (1 <? String.length normalizedPath)%nat
    then slice_0_neg1 normalizedPath
    else normalizedPath in
  normalizedPath.

(** [registerMount(mountPath, registry)]: the global [mountRegistry] array
    is threaded explicitly; [push] appends. *)
Definition registerMount {R : Type} (mountPath : string) (registry : R)
    (mountRegistry : list (MountInfo R)) : list (MountInfo R) :=
  mountRegistry ++ [mkMountInfo (normalizedPath mountPath) registry].

(** The path rewriting shared by [combineRegistries] (local
    [normalizedPath], lines 146-152) and by [generateOpenAPIDocument]
    (local [fullPath]): one leading slash is taken off the route path and
    the result is glued under the mount path. *)
Definition routePath_stripped (routePath : string) : string :=
  if startsWith routePath "/" then substring_1 routePath else routePath.

Definition fullPath (path routePath : string) : string :=
  let routePath := routePath_stripped routePath in
  if String.eqb path "/" then "/" +:+ routePath
  else path +:+ "/" +:+ routePath.

End MountLedger.

(** ** JSON data, as far as the composition code looks into it *)

Module Json.

(** The JSON-representable values: what survives
    [JSON.parse(JSON.stringify(v))] unchanged.  Object members are kept in
    enumeration order; numbers are the integers. *)
#[local] Set Warnings "-register-all".
Inductive Json : Type :=
| JNull
| JBool (b : bool)
| JNum (n : Z)
| JStr (s : string)
| JArr (elems : list Json)
| JObj (members : list (string * Json)).

(** The double quote character. *)
Definition dquote : ascii := Ascii.ascii_of_nat 34.

(** Escaping of a string literal: the quote and the backslash (control
    characters are left as they are). *)
Fixpoint escape (s : string) : string :=
  match s with
  | EmptyString => EmptyString
  | String c s' =>
      if Ascii.eqb c dquote then String "\"%char (String c (escape s'))
      else if Ascii.eqb c "\"%char then String "\"%char (String c (escape s'))
      else String c (escape s')
  end.

Definition quote (s : string) : string :=
  String dquote (escape s +:+ String dquote EmptyString).

(** [JSON.stringify(v)] *)
Fixpoint stringify (v : Json) : string :=
  match v with
  | JNull => "null"
  | JBool true => "true"
  | JBool false => "false"
  | JNum n => DecimalString.NilEmpty.string_of_int (Z.to_int n)
  | JStr s => quote s
  | JArr elems =>
      "[" +:+
      (fix go (l : list Json) : string :=
         match l with
         | [] => EmptyString
         | x :: l' =>
             match l' with
             | [] => stringify x
             | _ :: _ => stringify x +:+ "," +:+ go l'
             end
         end) elems +:+ "]"
  | JObj members =>
      "{" +:+
      (fix go (l : list (string * Json)) : string :=
         match l with
         | [] => EmptyString
         | (k, x) :: l' =>
             match l' with
             | [] => quote k +:+ ":" +:+ stringify x
             | _ :: _ => quote k +:+ ":" +:+ stringify x +:+ "," +:+ go l'
             end
         end) members +:+ "}"
  end.

(** Member lookup in an object's member list. *)
Fixpoint assoc (k : string) (members : list (string * Json)) : option Json :=
  match members with
  | [] => None
  | (k', v) :: rest => if String.eqb k' k then Some v else assoc k rest
  end.

(** [{...members, k: v}] and [obj.k = v]: an existing member keeps its
    place and takes the new value, a new member goes last. *)
Fixpoint set_member (k : string) (v : Json) (members : list (string * Json))
    : list (string * Json) :=
  match members with
  | [] => [(k, v)]
  | (k', v') :: rest =>
      if String.eqb k' k then (k', v) :: rest
      else (k', v') :: set_member k v rest
  end.

(** [a === b] where [None] is [undefined].  Two structured values are
    equal only when they are the same object; the composition code only
    compares a member of a base definition with a member of a fresh deep
    copy, which never is. *)
Definition strict_eq (a b : option Json) : bool :=
  match a, b with
  | None, None => true
  | Some JNull, Some JNull => true
  | Some (JBool x), Some (JBool y) => Bool.eqb x y
  | Some (JNum x), Some (JNum y) => Z.eqb x y
  | Some (JStr x), Some (JStr y) => String.eqb x y
  | _, _ => false
  end.

End Json.

(** ** Registries in a store, and the composition engine *)

Module Composition.
Import JsString MountLedger Json.

(** A definition object, with the members the code reads: [def.type],
    [def.name] (absent for path definitions and anonymous fragments) and
    [def.schema]. *)
Record DefinitionObj : Type := mkDefinitionObj
  { type : string;
    name : option string;
    schema : Json }.

(** Objects are shared by reference: a definition pushed into the base
    registry is the very object of the mounted registry unless the code
    copies it.  The store keeps the definition objects and the registry
    objects by address. *)
Abbreviation Addr := nat.

(** A registry object: [getRawRegistry] is [None] when the object has no
    such method and [Some r] when calling it returns [r] ([None] for a
    falsy result); [definitions] is the array of the addresses of its
    definition objects, [None] when the member is missing. *)
Record RegistryObj : Type := mkRegistryObj
  { getRawRegistry : option (option Addr);
    definitions : option (list Addr) }.

Record Heap : Type := mkHeap
  { objects : list DefinitionObj;
    registries : list RegistryObj }.

(** A statement either completes or throws a [TypeError]; the store
    survives a throw, as it does in JavaScript. *)
Inductive Completion (A : Type) : Type :=
| Normal (a : A)
| TypeError.
Arguments Normal {A} _.
Arguments TypeError {A}.

Definition JS (A : Type) : Type := Heap -> Completion A * Heap.

Definition ret {A : Type} (a : A) : JS A := fun h => (Normal a, h).

Definition bind {A B : Type} (m : JS A) (k : A -> JS B) : JS B :=
  fun h =>
    match m h with
    | (Normal a, h') => k a h'
    | (TypeError, h') => (TypeError, h')
    end.

Definition lift {A : Type} (c : Completion A) : JS A := fun h => (c, h).

Declare Scope js_scope.
Delimit Scope js_scope with js.
Notation "x <- m ;; k" := (bind m (fun x => k))
  (at level 100, m at next level, right associativity) : js_scope.
Notation "m ;;; k" := (bind m (fun _ => k))
  (at level 100, right associativity) : js_scope.
Local Open Scope js_scope.

(** [array.forEach(f)] over the elements present when the loop starts. *)
Fixpoint forEach {A : Type} (l : list A) (f : A -> JS unit) : JS unit :=
  match l with
  | [] => ret tt
  | x :: l' => f x ;;; forEach l' f
  end.

(** Reading a definition object. *)
Definition getDef (a : Addr) : JS DefinitionObj :=
  fun h =>
    match objects h !! a with
    | Some d => (Normal d, h)
    | None => (TypeError, h)
    end.

(** A fresh definition object. *)
Definition allocDef (d : DefinitionObj) : JS Addr :=
  fun h =>
    (Normal (length (objects h)),
     mkHeap (objects h ++ [d]) (registries h)).

(** Assignment to a member of the definition object at [a]. *)
Definition setDef (a : Addr) (d : DefinitionObj) : JS unit :=
  fun h => (Normal tt, mkHeap (<[a := d]> (objects h)) (registries h)).

(** [r.definitions] *)
Definition definitionsOf (r : Addr) : JS (option (list Addr)) :=
  fun h =>
    (Normal (match registries h !! r with
             | Some o => definitions o
             | None => None
             end), h).

(** [r.getRawRegistry ? r.getRawRegistry() : r] *)
Definition rawRegistryOf (r : Addr) : JS (option Addr) :=
  fun h =>
    (Normal (match registries h !! r with
             | Some o =>
                 match getRawRegistry o with
                 | Some raw => raw
                 | None => Some r
                 end
             | None => Some r
             end), h).

(** [r.definitions.push(a)] *)
Definition push (r : Addr) (a : Addr) : JS unit :=
  fun h =>
    match registries h !! r with
    | Some o =>
        match definitions o with
        | Some ds =>
            (Normal tt,
             mkHeap (objects h)
               (<[r := mkRegistryObj (getRawRegistry o) (Some (ds ++ [a]))]>
                  (registries h)))
        | None => (TypeError, h)
        end
    | None => (TypeError, h)
    end.

(** [array.some(p)] on definition objects already read from the store. *)
Fixpoint someDef (p : DefinitionObj -> Completion bool)
    (l : list DefinitionObj) : Completion bool :=
  match l with
  | [] => Normal false
  | d :: l' =>
      match p d with
      | Normal true => Normal true
      | Normal false => someDef p l'
      | TypeError => TypeError
      end
  end.

Fixpoint getDefs (l : list Addr) : JS (list DefinitionObj) :=
  match l with
  | [] => ret []
  | a :: l' => d <- getDef a ;; ds <- getDefs l' ;; ret (d :: ds)
  end.

(** [r.definitions.some(p)] *)
Definition some (r : Addr) (p : DefinitionObj -> Completion bool) : JS bool :=
  ds <- definitionsOf r ;;
  match ds with
  | None => lift TypeError
  | Some l => objs <- getDefs l ;; lift (someDef p objs)
  end.

(** [v.k]: reading a member of [null] throws, a primitive or an array has
    no such member. *)
Definition getMember (v : Json) (k : string) : Completion (option Json) :=
  match v with
  | JNull => TypeError
  | JObj members => Normal (assoc k members)
  | _ => Normal None
  end.

(** The members copied by [{...v}]. *)
Definition spread (v : Json) : list (string * Json) :=
  match v with
  | JObj members => members
  | _ => []
  end.

(** Truthiness of [def.name]. *)
Definition truthy_name (n : option string) : bool :=
  match n with
  | Some s => negb (String.eqb s EmptyString)
  | None => false
  end.

(** [a === b] on [name] members. *)
Definition name_eq (a b : option string) : bool :=
  match a, b with
  | Some x, Some y => String.eqb x y
  | None, None => true
  | _, _ => false
  end.

(** The test of lines 127-130, 168-171 and 284-287:
    [baseDef.type === def.type && (def.name ? baseDef.name === def.name :
     JSON.stringify(baseDef.schema) === JSON.stringify(def.schema))]. *)
Definition sameFragment (def baseDef : DefinitionObj) : Completion bool :=
  Normal (String.eqb (type baseDef) (type def) &&
          (if truthy_name (name def) then name_eq (name baseDef) (name def)
           else String.eqb (stringify (schema baseDef)) (stringify (schema def)))).

(** The test of lines 160-163:
    [baseDef.type === 'path' && baseDef.schema.path === adjustedDef.schema.path
     && baseDef.schema.method === adjustedDef.schema.method]. *)
Definition samePath (adjustedDef baseDef : DefinitionObj) : Completion bool :=
  if String.eqb (type baseDef) "path" then
    match getMember (schema baseDef) "path", getMember (schema adjustedDef) "path" with
    | Normal bp, Normal ap =>
        if strict_eq bp ap then
          match getMember (schema baseDef) "method",
                getMember (schema adjustedDef) "method" with
          | Normal bm, Normal am => Normal (strict_eq bm am)
          | _, _ => TypeError
          end
        else Normal false
    | _, _ => TypeError
    end
  else Normal false.

(** [def.schema.path] followed by [routePath.startsWith('/')]: anything
    but a string has no such method. *)
Definition routePathOf (def : DefinitionObj) : Completion string :=
  match getMember (schema def) "path" with
  | Normal (Some (JStr s)) => Normal s
  | _ => TypeError
  end.

(** Lines 126-133 and 167-173: add the object itself unless the base has
    the same fragment. *)
Definition addFragment (baseRegistry : Addr) (a : Addr) (def : DefinitionObj)
    : JS unit :=
  found <- some baseRegistry (sameFragment def) ;;
  if negb found then push baseRegistry a else ret tt.

(** The body of the inner loop of [combineRegistries], lines 138-175. *)
Definition combineDefinition (baseRegistry : Addr) (path : string) (a : Addr)
    : JS unit :=
  def <- getDef a ;;
  if String.eqb (type def) "path" then
    adjustedDef <- allocDef def ;;
    routePath <- lift (routePathOf def) ;;
    let normalizedPath := fullPath path routePath in
    adjusted <- getDef adjustedDef ;;
    let adjusted' :=
      mkDefinitionObj (type adjusted) (name adjusted)
        (JObj (set_member "path" (JStr normalizedPath) (spread (schema adjusted)))) in
    setDef adjustedDef adjusted' ;;;
    found <- some baseRegistry (samePath adjusted') ;;
    if negb found then push baseRegistry adjustedDef else ret tt
  else addFragment baseRegistry a def.

(** The body of the outer loop, lines 117-176. *)
Definition combineMount (baseRegistry : Addr) (m : MountInfo (option Addr))
    : JS unit :=
  match registry m with
  | None => ret tt
  | Some r =>
      ds <- definitionsOf r ;;
      match ds with
      | None => ret tt
      | Some l =>
          if String.eqb (path m) "/" then
            forEach l (fun a => def <- getDef a ;; addFragment baseRegistry a def)
          else
            forEach l (combineDefinition baseRegistry (path m))
      end
  end.

(** [combineRegistries(baseRegistry)], with the global [mountRegistry]
    as an argument. *)
Definition combineRegistries (mountRegistry : list (MountInfo (option Addr)))
    (baseRegistry : Addr) : JS Addr :=
  forEach mountRegistry (combineMount baseRegistry) ;;;
  ret baseRegistry.

(** [obj.k = v] on the schema of the copy. The schema is an object there:
    [routePathOf] has read a string member from it. *)
Definition assignMember (v : Json) (k : string) (x : Json) : Completion Json :=
  match v with
  | JObj members => Normal (JObj (set_member k x members))
  | _ => TypeError
  end.

(** The body of the inner loop of the [generateOpenAPIDocument] override,
    lines 261-291. *)
Definition generateDefinition (baseRegistry : Addr) (path : string) (a : Addr)
    : JS unit :=
  def <- getDef a ;;
  if String.eqb (type def) "path" then
    adjustedDef <- allocDef def ;;
    routePath <- lift (routePathOf def) ;;
    let fullPath := fullPath path routePath in
    adjusted <- getDef adjustedDef ;;
    schema' <- lift (assignMember (schema adjusted) "path" (JStr fullPath)) ;;
    setDef adjustedDef (mkDefinitionObj (type adjusted) (name adjusted) schema') ;;;
    push baseRegistry adjustedDef
  else addFragment baseRegistry a def.

(** The body of its outer loop, lines 247-292. *)
Definition generateMount (baseRegistry : Addr) (m : MountInfo (option Addr))
    : JS unit :=
  match registry m with
  | None => ret tt
  | Some mountedRegistry =>
      raw <- rawRegistryOf mountedRegistry ;;
      match raw with
      | None => ret tt
      | Some rawRegistry =>
          ds <- definitionsOf rawRegistry ;;
          match ds with
          | None => ret tt
          | Some l => forEach l (generateDefinition baseRegistry (path m))
          end
      end
  end.

(** The composition done by the [generateOpenAPIDocument] override before
    it hands over to the original generator; [baseRegistry] is the result
    of [registry.getRawRegistry()]. *)
Definition generateOpenAPIDocument (mountRegistry : list (MountInfo (option Addr)))
    (baseRegistry : Addr) : JS Addr :=
  forEach mountRegistry (generateMount baseRegistry) ;;;
  ret baseRegistry.

End Composition.

(** ** What the properties of the composition are stated with *)

Module CompositionSpec.
Import JsString MountLedger Json Composition.

(** The definitions array of a registry after [added] has been pushed. *)
Definition pushed (ds : option (list Addr)) (added : list Addr) : option (list Addr) :=
  match ds with
  | Some l => Some (l ++ added)
  | None => None
  end.

(** From [h] to [h']: every definition object of [h] is in [h'] as it was,
    every registry object but the base is as it was, and the base has the
    definitions it had, followed by the addresses pushed. *)
Definition grows (baseRegistry : Addr) (h h' : Heap) : Prop :=
  (forall a d, objects h !! a = Some d -> objects h' !! a = Some d) /\
  (forall r, r <> baseRegistry -> registries h' !! r = registries h !! r) /\
  (forall o, registries h !! baseRegistry = Some o ->
     exists added,
       registries h' !! baseRegistry =
       Some (mkRegistryObj (getRawRegistry o) (pushed (definitions o) added))).

(** A computation whose every run grows the store. *)
Definition growing {A : Type} (baseRegistry : Addr) (m : JS A) : Prop :=
  forall h, grows baseRegistry h (snd (m h)).

(** The definition objects of a registry, in the order of its array. *)
Definition definitionsAt (h : Heap) (r : Addr) : list DefinitionObj :=
  match registries h !! r with
  | Some o =>
      match definitions o with
      | Some l => omap (fun a => objects h !! a) l
      | None => []
      end
  | None => []
  end.

(** A path definition, as plain data. *)
Definition pathDefinition (method path : string) (more : list (string * Json))
    : DefinitionObj :=
  mkDefinitionObj "path" None
    (JObj (("method", JStr method) :: ("path", JStr path) :: more)).

(** [(method, path)] of a definition, as the code reads them. *)
Definition methodOf (d : DefinitionObj) : option Json := assoc "method" (spread (schema d)).
Definition pathOf (d : DefinitionObj) : option Json := assoc "path" (spread (schema d)).

Definition isPath (d : DefinitionObj) : bool := String.eqb (type d) "path".
Definition isNamed (d : DefinitionObj) : bool := negb (isPath d) && truthy_name (name d).
Definition isAnonymous (d : DefinitionObj) : bool :=
  negb (isPath d) && negb (truthy_name (name d)).

(** Two definitions that the invariant of the data model forbids to be in
one collection, [new] coming after [old]: two path definitions with the
same method and path, two named definitions of one kind with the same
name, two anonymous definitions of one kind with the same serialised
schema. *)
Definition clash (new old : DefinitionObj) : bool :=
(isPath new && isPath old &&
 strict_eq (pathOf old) (pathOf new) && strict_eq (methodOf old) (methodOf new)) ||
(isNamed new && isNamed old &&
 String.eqb (type old) (type new) && name_eq (name old) (name new)) ||
(isAnonymous new && isAnonymous old &&
 String.eqb (type old) (type new) &&
 String.eqb (stringify (schema old)) (stringify (schema new))).

(** The invariant of a definition collection. *)
Fixpoint noClash (l : list DefinitionObj) : bool :=
match l with
| [] => true
| d :: l' => forallb (fun d' => negb (clash d' d)) l' && noClash l'
end.

(** Every address held by the definitions array of [r] is that of an
    object of the store. *)
Definition closedAt (h : Heap) (r : Addr) : Prop :=
  forall o l a,
    registries h !! r = Some o -> definitions o = Some l -> a ∈ l ->
    (a < length (objects h))%nat.

(** The base registry holds addresses of objects of the store and keeps
the invariant of the data model. *)
Definition wellKept (baseRegistry : Addr) (h : Heap) : Prop :=
closedAt h baseRegistry /\ noClash (definitionsAt h baseRegistry) = true.

(** A computation that keeps a property of the store, however it ends. *)
Definition keeps {A : Type} (I : Heap -> Prop) (m : JS A) : Prop :=
forall h, I h -> I (snd (m h)).

(** The base registry has a definitions array, of addresses of the store. *)
Definition ready (baseRegistry : Addr) (h : Heap) : Prop :=
closedAt h baseRegistry /\
exists o l, registries h !! baseRegistry = Some o /\ definitions o = Some l.

(** The copy of a path definition [def] with route path [routePath], as
[combineRegistries] leaves it for the mount path [path]. *)
Definition adjustedFor (path : string) (def : DefinitionObj) (routePath : string)
  : DefinitionObj :=
mkDefinitionObj (type def) (name def)
  (JObj (set_member "path" (JStr (fullPath path routePath)) (spread (schema def)))).

(** What [combineRegistries] offers to the base for the definition [def]
of a registry mounted at [path], and the test it looks for it with. *)
Definition offered (path : string) (def : DefinitionObj) : DefinitionObj :=
if String.eqb path "/" then def
else if String.eqb (type def) "path" then
  match routePathOf def with
  | Normal routePath => adjustedFor path def routePath
  | TypeError => def
  end
else def.

Definition probe (path : string) (def : DefinitionObj)
  : DefinitionObj -> Completion bool :=
if String.eqb path "/" then sameFragment def
else if String.eqb (type def) "path" then samePath (offered path def)
else sameFragment def.

(** The body of the inner loop of [combineRegistries] for a mount at [path]. *)
Definition mountStep (baseRegistry : Addr) (path : string) (a : Addr) : JS unit :=
if String.eqb path "/"
then bind (getDef a) (fun def => addFragment baseRegistry a def)
else combineDefinition baseRegistry path a.

(** The method of a path definition is missing or a primitive value, so
that it is [===] to itself in a copy. *)
Definition plainMethod (def : DefinitionObj) : Prop :=
strict_eq (methodOf def) (methodOf def) = true.

(** The base has, for every definition of the registry mounted by [m], a
definition that the test of [combineRegistries] finds. *)
Definition covered (baseRegistry : Addr) (m : MountInfo (option Addr)) (h : Heap) : Prop :=
forall r o l a,
  registry m = Some r -> registries h !! r = Some o -> definitions o = Some l ->
  a ∈ l ->
  exists def, objects h !! a = Some def /\
    someDef (probe (path m) def) (definitionsAt h baseRegistry) = Normal true.

(** A mounted registry the second composition can be compared on: it is
not the base, its array holds addresses of the store, and its path
definitions have plain methods. *)
Definition mountable (baseRegistry : Addr) (m : MountInfo (option Addr)) (h : Heap) : Prop :=
forall r, registry m = Some r ->
  r <> baseRegistry /\ closedAt h r /\
  (forall o l a def,
     registries h !! r = Some o -> definitions o = Some l -> a ∈ l ->
     objects h !! a = Some def -> plainMethod def).

(** From [h] to [h'] the store grows and the base keeps its definition
objects, in their order, before any new one. *)
Definition extends (baseRegistry : Addr) (h h' : Heap) : Prop :=
grows baseRegistry h h' /\
exists x, definitionsAt h' baseRegistry = definitionsAt h baseRegistry ++ x.

(** The definition at [a] is there and, when its method is plain, the
base has a definition that the test for it finds. *)
Definition found (baseRegistry : Addr) (path : string) (a : Addr) (h : Heap) : Prop :=
exists def, objects h !! a = Some def /\
  (plainMethod def ->
   someDef (probe path def) (definitionsAt h baseRegistry) = Normal true).

(** Example stores: registry 0 is the base, registry 1 a router's. *)
Definition emptyBase : RegistryObj := mkRegistryObj None (Some []).

Definition usersRoute : DefinitionObj :=
  pathDefinition "get" "/users" [("summary", JStr "List users")].

(** An empty base and a router with [GET /users]. *)
Definition freshStore : Heap :=
  mkHeap [usersRoute] [emptyBase; mkRegistryObj None (Some [0%nat])].

(** A base that already documents [GET /api/users], and the same router. *)
Definition takenStore : Heap :=
  mkHeap [pathDefinition "get" "/api/users" [("summary", JStr "Base")]; usersRoute]
         [mkRegistryObj None (Some [0%nat]); mkRegistryObj None (Some [1%nat])].

(** A base and a router that both document [GET /x], differently. *)
Definition rootStore : Heap :=
  mkHeap [pathDefinition "get" "/x" [("summary", JStr "A")];
          pathDefinition "get" "/x" [("summary", JStr "B")]]
         [mkRegistryObj None (Some [0%nat]); mkRegistryObj None (Some [1%nat])].

Definition mountedAt (path : string) (r : Addr) : MountInfo (option Addr) :=
  mkMountInfo path (Some r).

End CompositionSpec.

(** ** The dispatcher: wrapped verb methods and the wrapped [use] *)

Module Dispatcher.
Import MountLedger.

(** [type HttpMethod] of [types.ts]. *)
Inductive HttpMethod : Type := GET | POST | PUT | PATCH | DELETE | OPTIONS | HEAD.

Definition HttpMethod_eqb (a b : HttpMethod) : bool :=
  match a, b with
  | GET, GET | POST, POST | PUT, PUT | PATCH, PATCH
  | DELETE, DELETE | OPTIONS, OPTIONS | HEAD, HEAD => true
  | _, _ => false
  end.

(** The string a method is in the source. *)
Definition methodName (m : HttpMethod) : string :=
  match m with
  | GET => "get" | POST => "post" | PUT => "put" | PATCH => "patch"
  | DELETE => "delete" | OPTIONS => "options" | HEAD => "head"
  end.

(** The values a call can carry.  A function (handler, middleware, router)
    has an identity and own members; a router made by [routerPlus] carries
    [_isRouterPlus] and [_registry]. *)
#[local] Set Warnings "-register-all".
Inductive Value : Type :=
| VUndefined
| VNull
| VBool (b : bool)
| VNum (n : Z)
| VStr (s : string)
| VRegExp (source : string)
| VArray (elems : list Value)
| VObject (members : list (string * Value))
| VFunction (id : nat) (members : list (string * Value)).

Inductive TypeTag : Type :=
| T_undefined | T_object | T_boolean | T_number | T_string | T_function.

(** [typeof v] *)
Definition typeof (v : Value) : TypeTag :=
  match v with
  | VUndefined => T_undefined
  | VNull | VRegExp _ | VArray _ | VObject _ => T_object
  | VBool _ => T_boolean
  | VNum _ => T_number
  | VStr _ => T_string
  | VFunction _ _ => T_function
  end.

Definition TypeTag_eqb (a b : TypeTag) : bool :=
  match a, b with
  | T_undefined, T_undefined | T_object, T_object | T_boolean, T_boolean
  | T_number, T_number | T_string, T_string | T_function, T_function => true
  | _, _ => false
  end.

Definition isNull (v : Value) : bool :=
  match v with VNull => true | _ => false end.

(** [Array.isArray(v)] *)
Definition isArray (v : Value) : bool :=
  match v with VArray _ => true | _ => false end.

(** [v instanceof RegExp] *)
Definition instanceofRegExp (v : Value) : bool :=
  match v with VRegExp _ => true | _ => false end.

(** Truthiness. *)
Definition truthy (v : Value) : bool :=
  match v with
  | VUndefined | VNull => false
  | VBool b => b
  | VNum n => negb (Z.eqb n 0)
  | VStr s => negb (String.eqb s EmptyString)
  | _ => true
  end.

Fixpoint assoc (k : string) (members : list (string * Value)) : Value :=
  match members with
  | [] => VUndefined
  | (k', v) :: rest => if String.eqb k' k then v else assoc k rest
  end.

(** [v.k], read only on values already known to be truthy or objects. *)
Definition getMember (v : Value) (k : string) : Value :=
  match v with
  | VObject members | VFunction _ members => assoc k members
  | _ => VUndefined
  end.

(** [args[i]] *)
Definition arg (i : nat) (args : list Value) : Value := nth i args VUndefined.

(** What the wrapped methods call into, in the order of the calls; a call
    of the underlying [use] also shows the ledger it finds. *)
Inductive Call : Type :=
| CreateEndpoint (method : HttpMethod) (path : Value) (options : Value)
| OriginalMethod (method : HttpMethod) (args : list Value)
| OriginalUse (args : list Value) (ledger : list (MountInfo Value)).

Record World : Type := mkWorld
  { mountRegistry : list (MountInfo Value);
    calls : list Call }.

Inductive Outcome (A : Type) : Type :=
| Returned (a : A)
| Threw (message : string).
Arguments Returned {A} _.
Arguments Threw {A} _.

Definition Eff (A : Type) : Type := World -> Outcome A * World.

Definition ret {A : Type} (a : A) : Eff A := fun w => (Returned a, w).

Definition throw {A : Type} (message : string) : Eff A :=
  fun w => (Threw message, w).

Definition bind {A B : Type} (m : Eff A) (k : A -> Eff B) : Eff B :=
  fun w =>
    match m w with
    | (Returned a, w') => k a w'
    | (Threw e, w') => (Threw e, w')
    end.

Declare Scope eff_scope.
Delimit Scope eff_scope with eff.
Notation "x <- m ;; k" := (bind m (fun x => k))
  (at level 100, m at next level, right associativity) : eff_scope.
Notation "m ;;; k" := (bind m (fun _ => k))
  (at level 100, right associativity) : eff_scope.
Local Open Scope eff_scope.

(** A verb method of a routing target, and the factory of validation
    middleware. *)
Definition VerbMethod : Type := list Value -> Eff Value.
Definition Target : Type := HttpMethod -> VerbMethod.
Definition EndpointFactory : Type := HttpMethod -> Value -> Value -> Eff Value.

(** [typeof v === 'object' && v !== null && !Array.isArray(v) &&
     !(v instanceof RegExp)] *)
Definition isOptionsObject (v : Value) : bool :=
  TypeTag_eqb (typeof v) T_object && negb (isNull v) &&
  negb (isArray v) && negb (instanceofRegExp v).

(** The test of case 1, lines 22-23. *)
Definition optionsFirst (args : list Value) : bool :=
  (1 <? length args)%nat && isOptionsObject (arg 0 args).

(** The test of case 2, lines 37-39. *)
Definition pathThenOptions (args : list Value) : bool :=
  (2 <? length args)%nat &&
  TypeTag_eqb (typeof (arg 0 args)) T_string &&
  isOptionsObject (arg 1 args).

Definition missingPathMessage (method : HttpMethod) : string :=
  "Path is required when using options as first argument for " +:+ methodName method.

(** The function installed as [target[method]], lines 20-51. *)
Definition enhancedMethod (createEndpoint : EndpointFactory)
    (method : HttpMethod) (originalMethod : VerbMethod) : VerbMethod :=
  fun args =>
    if optionsFirst args then
      let opts := arg 0 args in
      let handler := arg 1 args in
      let rest := skipn 2 args in
      if negb (truthy (getMember opts "path")) then
        throw (missingPathMessage method)
      else
        validationMiddleware <- createEndpoint method (getMember opts "path") opts ;;
        originalMethod (getMember opts "path" :: validationMiddleware :: handler :: rest)
    else if pathThenOptions args then
      let path := arg 0 args in
      let opts := arg 1 args in
      let handler := arg 2 args in
      let rest := skipn 3 args in
      validationMiddleware <- createEndpoint method path opts ;;
      originalMethod (path :: validationMiddleware :: handler :: rest)
    else
      originalMethod args.

(** [enhanceHttpMethods(target, methods, createEndpoint)]: each method of
    the list is replaced in turn by its wrapper. *)
Definition enhanceHttpMethods (target : Target) (methods : list HttpMethod)
    (createEndpoint : EndpointFactory) : Target :=
  fold_left
    (fun (target : Target) (method : HttpMethod) =>
       let originalMethod := target method in
       fun m => if HttpMethod_eqb m method
                then enhancedMethod createEndpoint method originalMethod
                else target m)
    methods target.

(** The list both [expressPlus] and [routerPlus] pass. *)
Definition methods : list HttpMethod :=
  [GET; POST; PUT; DELETE; PATCH; OPTIONS; HEAD].

(** [registerMount(mountPath, registry)] on the global ledger. *)
Definition callRegisterMount (mountPath : string) (registry : Value) : Eff unit :=
  fun w => (Returned tt,
            mkWorld (registerMount mountPath registry (mountRegistry w)) (calls w)).

(** [typeof args[0] === 'string' ? args[0] : '/'] *)
Definition mountPathOf (v : Value) : string :=
  match v with
  | VStr s => s
  | _ => "/"
  end.

(** [v && v._isRouterPlus && v._registry] *)
Definition isRouterPlus (v : Value) : bool :=
  truthy v && truthy (getMember v "_isRouterPlus") && truthy (getMember v "_registry").

(** The [use] installed on the application by [expressPlus], lines 210-234
    (the [console.log] calls are left out). *)
Definition app_use (originalUse : VerbMethod) : VerbMethod :=
  fun args =>
    (if (2 <=? length args)%nat then
       let mountPath := mountPathOf (arg 0 args) in
       let middleware := arg 1 args in
       if isRouterPlus middleware
       then callRegisterMount mountPath (getMember middleware "_registry")
       else ret tt
     else ret tt) ;;;
    (if (length args =? 1)%nat && isRouterPlus (arg 0 args)
     then callRegisterMount "/" (getMember (arg 0 args) "_registry")
     else ret tt) ;;;
    originalUse args.

(** The [use] installed on a router by [routerPlus], lines 51-76 of the
    router module. *)
Definition routerInstance_use (originalUse : VerbMethod) : VerbMethod :=
  fun args =>
    (if (2 <=? length args)%nat then
       let mountPath := mountPathOf (arg 0 args) in
       let middleware := arg 1 args in
       if isRouterPlus middleware
       then callRegisterMount mountPath (getMember middleware "_registry")
       else ret tt
     else ret tt) ;;;
    (if (length args =? 1)%nat && isRouterPlus (arg 0 args)
     then callRegisterMount "/" (getMember (arg 0 args) "_registry")
     else ret tt) ;;;
    originalUse args.

(** The externals as the properties below observe them: each call is
    logged and returns what the given function says. *)
Definition loggedFactory (middlewareOf : HttpMethod -> Value -> Value -> Value)
    : EndpointFactory :=
  fun method path options w =>
    (Returned (middlewareOf method path options),
     mkWorld (mountRegistry w) (calls w ++ [CreateEndpoint method path options])).

Definition loggedTarget (resultOf : HttpMethod -> list Value -> Value) : Target :=
  fun method args w =>
    (Returned (resultOf method args),
     mkWorld (mountRegistry w) (calls w ++ [OriginalMethod method args])).

Definition loggedUse (resultOf : list Value -> Value) : VerbMethod :=
  fun args w =>
    (Returned (resultOf args),
     mkWorld (mountRegistry w) (calls w ++ [OriginalUse args (mountRegistry w)])).

(** The wrapped target the properties run: logged externals under the
    wrappers of [enhanceHttpMethods]. *)
Definition wrapped (middlewareOf : HttpMethod -> Value -> Value -> Value)
    (resultOf : HttpMethod -> list Value -> Value) : Target :=
  enhanceHttpMethods (loggedTarget resultOf) methods (loggedFactory middlewareOf).

(** The world after the calls [cs] have been made. *)
Definition after (w : World) (cs : list Call) : World :=
  mkWorld (mountRegistry w) (calls w ++ cs).

(** The value the wrapped [use] examines and the mount path it takes: the
    second argument and the first one (when a string) in a call of two or
    more arguments, the only argument and the root in a call of one. *)
Definition examined (args : list Value) : Value :=
  if (2 <=? length args)%nat then arg 1 args else arg 0 args.

Definition mountPathTaken (args : list Value) : string :=
  if (2 <=? length args)%nat then mountPathOf (arg 0 args) else "/".

(** A router made by [routerPlus], with an empty registry object. *)
Definition someRouter : Value :=
  VFunction 7 [("_isRouterPlus", VBool true); ("_registry", VObject [])].

End Dispatcher.

(** ** What the further properties are stated with *)

Module MoreSpec.
Import JsString MountLedger Json Composition CompositionSpec Dispatcher.

(** The ledger entry a call of a wrapped [use] records, if any. *)
Definition recorded (args : list Value) : list (MountInfo Value) :=
  if isRouterPlus (examined args)
  then [mkMountInfo (normalizedPath (mountPathTaken args))
          (getMember (examined args) "_registry")]
  else [].

(** A call of [use], on the application ([false]) or on a router ([true]). *)
Definition useCall (resultOf : list Value -> Value) (c : bool * list Value)
  : Eff Value :=
  (if fst c then routerInstance_use else app_use) (loggedUse resultOf) (snd c).

(** The world after the calls of [use] of a set-up phase, in their order. *)
Fixpoint runUses (resultOf : list Value -> Value) (cs : list (bool * list Value))
    (w : World) : World :=
  match cs with
  | [] => w
  | c :: cs' => runUses resultOf cs' (snd (useCall resultOf c w))
  end.

(** The arguments of a call of the underlying [use]. *)
Definition forwardedArgs (c : Call) : option (list Value) :=
  match c with
  | OriginalUse args _ => Some args
  | _ => None
  end.

(** A target enhanced twice: by the factory [inner], then by [outer]. *)
Definition wrappedTwice (inner outer : HttpMethod -> Value -> Value -> Value)
    (resultOf : HttpMethod -> list Value -> Value) : Target :=
  enhanceHttpMethods
    (enhanceHttpMethods (loggedTarget resultOf) methods (loggedFactory inner))
    methods (loggedFactory outer).

(** How often a verb is in a list of verbs. *)
Definition occurrences (method : HttpMethod) (l : list HttpMethod) : nat :=
  length (filter (fun m => HttpMethod_eqb method m = true) l).

(** [combineRegistries(baseRegistry)] with a base that need not be an
object: [None] is [null] or [undefined], on which the read of
[baseRegistry.definitions] that opens the function throws before the ledger
is looked at; on an object the read gives the array or [undefined] and the
function goes on as [combineRegistries] has it. *)
Definition combineRegistriesFrom (mountRegistry : list (MountInfo (option Addr)))
    (baseRegistry : option Addr) : JS (option Addr) :=
  match baseRegistry with
  | None => Composition.lift TypeError
  | Some b =>
      Composition.bind (combineRegistries mountRegistry b)
        (fun r => Composition.ret (Some r))
  end.

(** The registry of a ledger entry contributes nothing to
[combineRegistries]: there is none, or it has no definitions array, or an
empty one. *)
Definition skippedByCombine (h : Heap) (m : MountInfo (option Addr)) : Prop :=
  match registry m with
  | None => True
  | Some r =>
      match registries h !! r with
      | Some o => definitions o = None \/ definitions o = Some []
      | None => True
      end
  end.

(** The same for the [generateOpenAPIDocument] override, which looks at the
raw registry. *)
Definition skippedByGenerate (h : Heap) (m : MountInfo (option Addr)) : Prop :=
  match registry m with
  | None => True
  | Some r =>
      match fst (rawRegistryOf r h) with
      | Normal (Some raw) =>
          match registries h !! raw with
          | Some o => definitions o = None \/ definitions o = Some []
          | None => True
          end
      | _ => True
      end
  end.

(** The copy the [generateOpenAPIDocument] override pushes for a path
definition with a string path. *)
Definition generated (path : string) (def : DefinitionObj) : DefinitionObj :=
  match routePathOf def with
  | Normal routePath => adjustedFor path def routePath
  | TypeError => def
  end.

(** A path definition the composition can rewrite: its schema has a string
[path]. *)
Definition rewritable (def : DefinitionObj) : Prop :=
  String.eqb (type def) "path" = true /\ exists routePath, routePathOf def = Normal routePath.

(** A path definition the composition throws on: its schema has no string
[path]. *)
Definition unrewritable (def : DefinitionObj) : Prop :=
  String.eqb (type def) "path" = true /\ routePathOf def = TypeError.

(** Where a definition of the composed base can come from: it is what
[combineRegistries] offers for a definition of the registry of a ledger
entry, as the store held it before the composition. *)
Definition fromLedger (mountRegistry : list (MountInfo (option Addr))) (h : Heap)
    (d : DefinitionObj) : Prop :=
  exists m r o l a def,
    m ∈ mountRegistry /\ registry m = Some r /\
    registries h !! r = Some o /\ definitions o = Some l /\ a ∈ l /\
    objects h !! a = Some def /\ d = offered (path m) def.

(** The registries of the ledger are not the base and hold addresses of
the store. *)
Definition apart (baseRegistry : Addr) (mountRegistry : list (MountInfo (option Addr)))
    (h : Heap) : Prop :=
  forall m r, m ∈ mountRegistry -> registry m = Some r ->
    r <> baseRegistry /\ closedAt h r.

(** The definition objects of the raw registry of a ledger entry. *)
Definition rawDefinitions (h : Heap) (m : MountInfo (option Addr)) : list DefinitionObj :=
  match registry m with
  | Some r =>
      match fst (rawRegistryOf r h) with
      | Normal (Some raw) => definitionsAt h raw
      | _ => []
      end
  | None => []
  end.

(** The registry of a ledger entry and its raw registry are not the base,
and the raw registry holds path definitions with string paths only. *)
Definition pathsOnly (baseRegistry : Addr) (h : Heap) (m : MountInfo (option Addr)) : Prop :=
  forall r raw,
    registry m = Some r -> fst (rawRegistryOf r h) = Normal (Some raw) ->
    r <> baseRegistry /\ raw <> baseRegistry /\
    forall o l a,
      registries h !! raw = Some o -> definitions o = Some l -> a ∈ l ->
      exists def, objects h !! a = Some def /\ rewritable def.

(** The addresses in the definitions array of a registry. *)
Definition arrayOf (h : Heap) (r : Addr) : list Addr :=
  match registries h !! r with
  | Some o =>
      match definitions o with
      | Some l => l
      | None => []
      end
  | None => []
  end.

(** A store with a router whose one path definition has no path. *)
Definition brokenStore : Heap :=
  mkHeap [mkDefinitionObj "path" None (JObj [("method", JStr "get")])]
         [emptyBase; mkRegistryObj None (Some [0%nat])].

(** A store whose router is known by a facade: registry 1 has the method
[getRawRegistry], which returns registry 2, and no definitions array. *)
Definition facadeStore : Heap :=
  mkHeap [usersRoute]
         [emptyBase; mkRegistryObj (Some (Some 2%nat)) None;
          mkRegistryObj None (Some [0%nat])].

End MoreSpec.

Module PathFacts.
Import JsString MountLedger.

Lemma startsWith_slash_cons c s :
  startsWith (String c s) "/" = Ascii.eqb c "/"%char.
Proof.
  unfold startsWith. cbn [String.prefix].
  destruct (ascii_dec "/"%char c) as [<- | Hne].
  - destruct s; reflexivity.
  - symmetry. apply Ascii.eqb_neq. congruence.
Qed.

Lemma startsWith_slash_nil : startsWith EmptyString "/" = false.
Proof. reflexivity. Qed.

Lemma endsWith_slash_nil : endsWith EmptyString "/" = false.
Proof. reflexivity. Qed.

Lemma endsWith_slash_single c :
  endsWith (String c EmptyString) "/" = Ascii.eqb c "/"%char.
Proof.
  simpl. destruct (Ascii.eqb c "/"%char); reflexivity.
Qed.

Lemma endsWith_slash_cons c d s :
  endsWith (String c (String d s)) "/" = endsWith (String d s) "/".
Proof.
  change (endsWith (String c (String d s)) "/")
    with (String.eqb (String c (String d s)) "/" || endsWith (String d s) "/").
  simpl. destruct (Ascii.eqb c "/"%char); reflexivity.
Qed.

Lemma hasDoubleSlash_app a b :
  hasDoubleSlash (a +:+ b) =
  hasDoubleSlash a || hasDoubleSlash b || (endsWith a "/" && startsWith b "/").
Proof.
  induction a as [| c a IH].
  - change (EmptyString +:+ b) with b.
    rewrite endsWith_slash_nil. cbn [hasDoubleSlash].
    destruct (hasDoubleSlash b); reflexivity.
  - change (String c a +:+ b) with (String c (a +:+ b)).
    cbn [hasDoubleSlash]. rewrite IH. clear IH.
    destruct a as [| d a].
    + rewrite endsWith_slash_single. change (EmptyString +:+ b) with b.
      cbn [hasDoubleSlash]. rewrite startsWith_slash_nil.
      destruct (Ascii.eqb c "/"%char), (startsWith b "/"), (hasDoubleSlash b); reflexivity.
    + rewrite endsWith_slash_cons.
      change (String d a +:+ b) with (String d (a +:+ b)).
      rewrite !startsWith_slash_cons.
      destruct (Ascii.eqb c "/"%char), (Ascii.eqb d "/"%char),
        (hasDoubleSlash (String d a)), (hasDoubleSlash b),
        (endsWith (String d a) "/"), (startsWith b "/"); reflexivity.
Qed.

Lemma endsWith_dslash_cons c s :
  endsWith (String c s) "//" = String.eqb (String c s) "//" || endsWith s "//".
Proof. reflexivity. Qed.

Lemma slice_startsWith s :
  startsWith s "/" = true -> (1 < String.length s)%nat ->
  startsWith (slice_0_neg1 s) "/" = true.
Proof.
  destruct s as [| c [| d s]]; cbn [String.length]; intros H Hlen; try lia.
  cbn [slice_0_neg1]. rewrite startsWith_slash_cons in *. exact H.
Qed.

Lemma slice_endsWith s :
  endsWith s "//" = false -> endsWith s "/" = true ->
  endsWith (slice_0_neg1 s) "/" = false.
Proof.
  induction s as [| c s IH]; intros Hdd Hend.
  - reflexivity.
  - destruct s as [| d s]; [reflexivity |].
    rewrite endsWith_slash_cons in Hend.
    rewrite endsWith_dslash_cons in Hdd.
    apply orb_false_iff in Hdd as [Heq Hdd].
    destruct s as [| e s].
    + cbn [slice_0_neg1]. rewrite endsWith_slash_single in *.
      cbn in Heq. rewrite Hend in Heq.
      destruct (Ascii.eqb c "/"%char); [discriminate | reflexivity].
    + specialize (IH Hdd Hend).
      change (slice_0_neg1 (String c (String d (String e s))))
        with (String c (slice_0_neg1 (String d (String e s)))).
      change (slice_0_neg1 (String d (String e s)))
        with (String d (slice_0_neg1 (String e s))) in *.
      rewrite endsWith_slash_cons. exact IH.
Qed.

Lemma hasDoubleSlash_endsWith s :
  hasDoubleSlash s = false -> endsWith s "//" = false.
Proof.
  induction s as [| c s IH]; intros H; [reflexivity |].
  rewrite endsWith_dslash_cons. cbn [hasDoubleSlash] in H.
  apply orb_false_iff in H as [H1 H2]. rewrite (IH H2), orb_false_r.
  destruct (String.eqb_spec (String c s) "//") as [E | E]; [| reflexivity].
  injection E as -> ->. discriminate.
Qed.

Lemma slice_hasDoubleSlash s :
  hasDoubleSlash s = false -> hasDoubleSlash (slice_0_neg1 s) = false.
Proof.
  induction s as [| c s IH]; intros H; [reflexivity |].
  destruct s as [| d s]; [reflexivity |].
  change (slice_0_neg1 (String c (String d s)))
    with (String c (slice_0_neg1 (String d s))).
  cbn [hasDoubleSlash] in H |- *.
  apply orb_false_iff in H as [H1 H2].
  change ((Ascii.eqb d "/"%char && startsWith s "/") || hasDoubleSlash s)
    with (hasDoubleSlash (String d s)) in H2.
  rewrite (IH H2), orb_false_r.
  destruct s as [| e s].
  - cbn [slice_0_neg1]. rewrite startsWith_slash_nil. apply andb_false_r.
  - change (slice_0_neg1 (String d (String e s)))
      with (String d (slice_0_neg1 (String e s))).
    rewrite startsWith_slash_cons in *. exact H1.
Qed.

Lemma prefixed_startsWith m :
  startsWith (if negb (startsWith m "/") then "/" +:+ m else m) "/" = true.
Proof.
  destruct (startsWith m "/") eqn:E; cbn [negb]; [exact E |].
  change ("/" +:+ m) with (String "/"%char m).
  now rewrite startsWith_slash_cons.
Qed.

(** The stored mount path begins with a slash, whatever was passed. *)
Lemma normalizedPath_startsWith mountPath :
  startsWith (normalizedPath mountPath) "/" = true.
Proof.
  unfold normalizedPath.
  set (p := if negb (startsWith mountPath "/") then "/" +:+ mountPath else mountPath).
  assert (Hp : startsWith p "/" = true) by apply prefixed_startsWith.
  destruct (endsWith p "/" && (1 <? String.length p)%nat) eqn:C; [| exact Hp].
  apply andb_true_iff in C as [_ C]. apply Nat.ltb_lt in C.
  now apply slice_startsWith.
Qed.

(** A string that begins and ends with a slash and has at most one
    character is the root path. *)
Lemma short_slash_is_root p :
  startsWith p "/" = true -> (1 <? String.length p)%nat = false -> p = "/".
Proof.
  destruct p as [| c [| d p]]; intros H Hlen.
  - discriminate.
  - rewrite startsWith_slash_cons in H. apply Ascii.eqb_eq in H. now subst.
  - discriminate.
Qed.

(** Unless the path passed ends with two slashes, the stored mount path
    ends with a slash only when it is the root path. *)
Lemma normalizedPath_endsWith mountPath :
  endsWith mountPath "//" = false ->
  endsWith (normalizedPath mountPath) "/" = true ->
  normalizedPath mountPath = "/".
Proof.
  intros Hdd. unfold normalizedPath.
  set (p := if negb (startsWith mountPath "/") then "/" +:+ mountPath else mountPath).
  assert (Hp : startsWith p "/" = true) by apply prefixed_startsWith.
  assert (Hpd : endsWith p "//" = false).
  { subst p. destruct (startsWith mountPath "/") eqn:E; cbn [negb]; [exact Hdd |].
    change ("/" +:+ mountPath) with (String "/"%char mountPath).
    rewrite endsWith_dslash_cons, Hdd, orb_false_r.
    destruct mountPath as [| c [| d m]]; try reflexivity.
    - rewrite startsWith_slash_cons in E. cbn. now rewrite E.
    - cbn. destruct (Ascii.eqb c "/"%char); reflexivity. }
  destruct (endsWith p "/") eqn:He; cbn [andb].
  - destruct (1 <? String.length p)%nat eqn:Hl.
    + intros H. rewrite slice_endsWith in H; [discriminate | assumption ..].
    + intros _. now apply short_slash_is_root.
  - intros H. congruence.
Qed.

Lemma normalizedPath_hasDoubleSlash mountPath :
  hasDoubleSlash mountPath = false ->
  hasDoubleSlash (normalizedPath mountPath) = false.
Proof.
  intros Hm. unfold normalizedPath.
  set (p := if negb (startsWith mountPath "/") then "/" +:+ mountPath else mountPath).
  assert (Hp : hasDoubleSlash p = false).
  { subst p. destruct (startsWith mountPath "/") eqn:E; cbn [negb]; [exact Hm |].
    change ("/" +:+ mountPath) with (String "/"%char mountPath).
    cbn [hasDoubleSlash]. now rewrite E, Hm. }
  destruct (endsWith p "/" && (1 <? String.length p)%nat); [| exact Hp].
  now apply slice_hasDoubleSlash.
Qed.

Lemma routePath_stripped_spec routePath :
  hasDoubleSlash routePath = false ->
  startsWith (routePath_stripped routePath) "/" = false /\
  hasDoubleSlash (routePath_stripped routePath) = false.
Proof.
  intros H. unfold routePath_stripped.
  destruct (startsWith routePath "/") eqn:E; [| now split].
  destruct routePath as [| c r]; [discriminate |].
  cbn [substring_1]. cbn [hasDoubleSlash] in H.
  apply orb_false_iff in H as [H1 H2].
  rewrite startsWith_slash_cons in E. rewrite E in H1. now split.
Qed.

(** The three spellings of the specification are stored as [/api]. *)
Lemma normalizedPath_api :
  normalizedPath "api/" = "/api" /\ normalizedPath "/api" = "/api" /\
  normalizedPath "/api/" = "/api".
Proof. repeat split; reflexivity. Qed.

Lemma startsWith_dslash_cons c s :
  startsWith (String c s) "//" = Ascii.eqb c "/"%char && startsWith s "/".
Proof.
  unfold startsWith. cbn [String.prefix].
  destruct (ascii_dec "/"%char c) as [<- | Hne]; [reflexivity |].
  symmetry. apply andb_false_iff. left. apply Ascii.eqb_neq. congruence.
Qed.

(** What the rewriting does establish, for every mount path passed to
[registerMount] and every route path: the rewritten path is the stored
mount path (nothing at the root), one slash, and the route path without
its first leading slash, so that a slash is never missing at the join; the
part before the joining slash does not end with a slash unless the mount
path passed ends with two, and the part after it does not begin with one
unless the route path begins with two. *)
Lemma fullPath_join (mountPath routePath : string) :
  let path := normalizedPath mountPath in
  let stripped := routePath_stripped routePath in
  let before := if String.eqb path "/" then EmptyString else path in
  fullPath path routePath = before +:+ "/" +:+ stripped /\
  (endsWith mountPath "//" = false -> endsWith before "/" = false) /\
  (startsWith routePath "//" = false -> startsWith stripped "/" = false).
Proof.
  intros path stripped before. split; [| split].
  - unfold fullPath. fold stripped. subst before.
    destruct (String.eqb path "/"); reflexivity.
  - intros Hm. subst before.
    destruct (String.eqb_spec path "/") as [E | E]; [reflexivity |].
    destruct (endsWith path "/") eqn:He; [| reflexivity].
    exfalso. apply E. now apply normalizedPath_endsWith.
  - intros Hr. subst stripped. unfold routePath_stripped.
    destruct (startsWith routePath "/") eqn:E; [| exact E].
    destruct routePath as [| c r]; [discriminate |].
    cbn [substring_1]. rewrite startsWith_dslash_cons in Hr.
    rewrite startsWith_slash_cons in E. now rewrite E in Hr.
Qed.

(** C4: the code misses the claim on a route path declared with two
leading slashes: one of them is taken off, the other is left, and the path
rewritten under [/api] has a double slash at the join, against the code's
own comment above the rewriting. A mount path passed with two trailing
slashes gives the same, through the slash that [registerMount] leaves. *)
Theorem fullPath_second_slash_left :
  routePath_stripped "//users" = "/users" /\
  fullPath (normalizedPath "/api") "//users" = "/api//users" /\
  hasDoubleSlash (fullPath (normalizedPath "/api") "//users") = true /\
  fullPath (normalizedPath "api//") "/users" = "/api//users".
Proof. repeat split; reflexivity. Qed.

(** When neither the mount path passed to [registerMount] nor the route
    path contains a double slash, the rewritten path has none either. *)
Theorem fullPath_single_slash_join (mountPath routePath : string) :
  hasDoubleSlash mountPath = false ->
  hasDoubleSlash routePath = false ->
  let path := normalizedPath mountPath in
  let stripped := routePath_stripped routePath in
  let before := if String.eqb path "/" then EmptyString else path in
  fullPath path routePath = before +:+ "/" +:+ stripped /\
  endsWith before "/" = false /\
  startsWith stripped "/" = false /\
  hasDoubleSlash (fullPath path routePath) = false.
Proof.
  intros Hm Hr path stripped before.
  destruct (routePath_stripped_spec routePath Hr) as [Hs1 Hs2].
  fold stripped in Hs1, Hs2.
  assert (Hjoin : fullPath path routePath = before +:+ "/" +:+ stripped).
  { unfold fullPath. fold stripped. subst before.
    destruct (String.eqb path "/"); reflexivity. }
  assert (Hbefore : endsWith before "/" = false).
  { subst before. destruct (String.eqb_spec path "/") as [E | E]; [reflexivity |].
    destruct (endsWith path "/") eqn:He; [| reflexivity].
    exfalso. apply E. apply normalizedPath_endsWith; [| exact He].
    now apply hasDoubleSlash_endsWith. }
  assert (Hbd : hasDoubleSlash before = false).
  { subst before. destruct (String.eqb path "/"); [reflexivity |].
    now apply normalizedPath_hasDoubleSlash. }
  repeat split; try assumption.
  rewrite Hjoin, hasDoubleSlash_app, Hbd, Hbefore.
  change ("/" +:+ stripped) with (String "/"%char stripped).
  cbn [hasDoubleSlash]. now rewrite Hs1, Hs2.
Qed.

Lemma fullPath_single_slash_join_witness :
  fullPath (normalizedPath "api/") "/users" = "/api/users" /\
  hasDoubleSlash (fullPath (normalizedPath "api/") "/users") = false.
Proof.
  destruct (fullPath_single_slash_join "api/" "/users") as (H1 & _ & _ & H4).
  - reflexivity.
  - reflexivity.
  - split; [exact H1 | exact H4].
Defined.

(** C5: the code misses the claim on a mount path that ends with two
    slashes: only one of them is taken off, and the stored path ends with
    a slash without being the root path. *)
Theorem registerMount_trailing_slash_left :
  registerMount "api//" tt [] = [mkMountInfo "/api/" tt] /\
  endsWith (normalizedPath "api//") "/" = true /\
  normalizedPath "api//" <> "/".
Proof. repeat split; try reflexivity. discriminate. Qed.

(** X25, what [registerMount] does establish: the stored path always begins
    with a slash, and it ends with one only as the root path unless the
    path passed ends with two slashes. *)
Lemma registerMount_normalized {R : Type} (mountPath : string) (registry : R)
    (ledger : list (MountInfo R)) :
  exists p,
    registerMount mountPath registry ledger = ledger ++ [mkMountInfo p registry] /\
    startsWith p "/" = true /\
    (endsWith mountPath "//" = false -> endsWith p "/" = true -> p = "/").
Proof.
  exists (normalizedPath mountPath). split; [reflexivity |]. split.
  - apply normalizedPath_startsWith.
  - apply normalizedPath_endsWith.
Qed.

End PathFacts.

(** ** Properties of the dispatcher *)

Module DispatcherFacts.
Import MountLedger Dispatcher.

(** With the list of verbs both set-up functions pass, every verb method
    of the target is its wrapper around the method found there. *)
Lemma enhanceHttpMethods_methods target createEndpoint method :
  enhanceHttpMethods target methods createEndpoint method =
  enhancedMethod createEndpoint method (target method).
Proof. destruct method; reflexivity. Qed.

(** The message of the configuration error ends with the verb. *)
Lemma missingPathMessage_names_method method :
  exists before, missingPathMessage method = before +:+ methodName method.
Proof. eexists. reflexivity. Qed.

(** C6: a call of two or more arguments whose first argument is a plain
    keyed object without a [path] member throws the error that names the
    verb. This is so for every factory and every underlying target, and
    the world is left as it was found: neither the factory nor the
    underlying method has been entered. *)
Theorem enhancedMethod_missing_path
    (target : Target) (createEndpoint : EndpointFactory) (method : HttpMethod)
    (opts handler : Value) (rest : list Value) (w : World) :
  isOptionsObject opts = true ->
  getMember opts "path" = VUndefined ->
  enhanceHttpMethods target methods createEndpoint method
    (opts :: handler :: rest) w
  = (Threw ("Path is required when using options as first argument for "
              +:+ methodName method), w).
Proof.
  intros Hobj Hpath. rewrite enhanceHttpMethods_methods.
  unfold enhancedMethod, optionsFirst, arg. cbn [length nth].
  rewrite Hobj. cbn [Nat.ltb Nat.leb andb]. rewrite Hpath. reflexivity.
Qed.

Lemma enhancedMethod_missing_path_witness :
  enhanceHttpMethods (loggedTarget (fun _ _ => VUndefined)) methods
    (loggedFactory (fun _ _ _ => VFunction 0 [])) POST
    [VObject [("body", VStr "S")]; VFunction 1 []] (mkWorld [] [])
  = (Threw "Path is required when using options as first argument for post",
     mkWorld [] []).
Proof.
  apply (enhancedMethod_missing_path
           (loggedTarget (fun _ _ => VUndefined))
           (loggedFactory (fun _ _ _ => VFunction 0 [])) POST
           (VObject [("body", VStr "S")]) (VFunction 1 []) [] (mkWorld [] []));
    reflexivity.
Defined.

(** A call that matches neither shape goes to the underlying method as it
    is, whatever the factory. *)
Lemma enhancedMethod_passthrough target createEndpoint method args :
  optionsFirst args = false ->
  pathThenOptions args = false ->
  enhanceHttpMethods target methods createEndpoint method args = target method args.
Proof.
  intros H1 H2. rewrite enhanceHttpMethods_methods.
  unfold enhancedMethod. now rewrite H1, H2.
Qed.

(** A string followed by one more argument matches neither shape. *)
Lemma two_arguments_no_shape (p : string) (second : Value) :
  optionsFirst [VStr p; second] = false /\
  pathThenOptions [VStr p; second] = false.
Proof. split; reflexivity. Qed.

Section Logged.
Variable middlewareOf : HttpMethod -> Value -> Value -> Value.
Variable resultOf : HttpMethod -> list Value -> Value.

Lemma wrapped_optionsFirst method opts handler rest w :
  isOptionsObject opts = true ->
  truthy (getMember opts "path") = true ->
  let path := getMember opts "path" in
  let validationMiddleware := middlewareOf method path opts in
  let registered := path :: validationMiddleware :: handler :: rest in
  wrapped middlewareOf resultOf method (opts :: handler :: rest) w =
  (Returned (resultOf method registered),
   after w [CreateEndpoint method path opts; OriginalMethod method registered]).
Proof.
  intros Hobj Hpath. unfold wrapped. rewrite enhanceHttpMethods_methods.
  unfold enhancedMethod, optionsFirst, arg. cbn [length nth].
  rewrite Hobj. cbn [Nat.ltb Nat.leb andb]. rewrite Hpath. cbn [negb].
  unfold bind, loggedFactory, loggedTarget, after. cbn.
  now rewrite <- app_assoc.
Qed.

Lemma wrapped_pathThenOptions method (p : string) opts handler rest w :
  isOptionsObject opts = true ->
  let validationMiddleware := middlewareOf method (VStr p) opts in
  let registered := VStr p :: validationMiddleware :: handler :: rest in
  wrapped middlewareOf resultOf method (VStr p :: opts :: handler :: rest) w =
  (Returned (resultOf method registered),
   after w [CreateEndpoint method (VStr p) opts; OriginalMethod method registered]).
Proof.
  intros Hobj. unfold wrapped. rewrite enhanceHttpMethods_methods.
  unfold enhancedMethod, optionsFirst, pathThenOptions, arg. cbn [length nth].
  cbn [isOptionsObject typeof TypeTag_eqb andb Nat.ltb Nat.leb].
  rewrite Hobj. cbn [andb].
  unfold bind, loggedFactory, loggedTarget, after. cbn.
  now rewrite <- app_assoc.
Qed.

Lemma wrapped_passthrough method args w :
  optionsFirst args = false ->
  pathThenOptions args = false ->
  wrapped middlewareOf resultOf method args w =
  (Returned (resultOf method args), after w [OriginalMethod method args]).
Proof.
  intros H1 H2. unfold wrapped.
  now rewrite enhancedMethod_passthrough.
Qed.

(** C7 (amended): for every verb, an options-first call whose options
    carry the path [p] and a path-then-options call with the path [p] each
    make one call of the factory and then one call of the underlying
    method, with the arguments [p], the middleware the factory returned,
    the handler and the rest, in this order. The two registrations have
    the same argument at every position but that of the middleware, which
    in each is what the factory returned for the options object it was
    shown (with the path member in the first shape, without it in the
    second); they are the same registration whenever that middleware is
    the same. A call that matches neither shape, such as a path and a
    handler, makes the one call of the underlying method with its own
    arguments and none of the factory. *)
Theorem wrapped_canonical_registration
    (method : HttpMethod) (p : string) (opts1 opts2 handler : Value)
    (rest : list Value) (w : World) :
  isOptionsObject opts1 = true ->
  getMember opts1 "path" = VStr p ->
  p <> EmptyString ->
  isOptionsObject opts2 = true ->
  let mw1 := middlewareOf method (VStr p) opts1 in
  let mw2 := middlewareOf method (VStr p) opts2 in
  wrapped middlewareOf resultOf method (opts1 :: handler :: rest) w =
    (Returned (resultOf method (VStr p :: mw1 :: handler :: rest)),
     after w [CreateEndpoint method (VStr p) opts1;
              OriginalMethod method (VStr p :: mw1 :: handler :: rest)]) /\
  wrapped middlewareOf resultOf method (VStr p :: opts2 :: handler :: rest) w =
    (Returned (resultOf method (VStr p :: mw2 :: handler :: rest)),
     after w [CreateEndpoint method (VStr p) opts2;
              OriginalMethod method (VStr p :: mw2 :: handler :: rest)]) /\
  (forall i, i <> 1%nat ->
     (VStr p :: mw1 :: handler :: rest) !! i = (VStr p :: mw2 :: handler :: rest) !! i) /\
  (mw1 = mw2 ->
   last (calls (snd (wrapped middlewareOf resultOf method (opts1 :: handler :: rest) w))) =
   last (calls (snd (wrapped middlewareOf resultOf method (VStr p :: opts2 :: handler :: rest) w)))) /\
  (forall args,
     optionsFirst args = false -> pathThenOptions args = false ->
     wrapped middlewareOf resultOf method args w =
     (Returned (resultOf method args), after w [OriginalMethod method args])) /\
  wrapped middlewareOf resultOf method [VStr p; handler] w =
    (Returned (resultOf method [VStr p; handler]),
     after w [OriginalMethod method [VStr p; handler]]).
Proof.
  intros Hobj1 Hpath Hne Hobj2 mw1 mw2.
  assert (Htruthy : truthy (getMember opts1 "path") = true).
  { rewrite Hpath. cbn. destruct (String.eqb_spec p EmptyString); [contradiction | reflexivity]. }
  pose proof (wrapped_optionsFirst method opts1 handler rest w Hobj1 Htruthy) as E1.
  rewrite Hpath in E1. cbv zeta in E1.
  pose proof (wrapped_pathThenOptions method p opts2 handler rest w Hobj2) as E2.
  cbv zeta in E2.
  split; [exact E1 |]. split; [exact E2 |]. split.
  { intros [| [| i]] Hi; [reflexivity | contradiction | reflexivity]. }
  split.
  - intros Hmw. rewrite E1, E2. unfold after. cbn [snd calls].
    rewrite !last_app. cbn [last].
    change (Some (OriginalMethod method (VStr p :: mw1 :: handler :: rest)) =
            Some (OriginalMethod method (VStr p :: mw2 :: handler :: rest))).
    now rewrite Hmw.
  - split.
    + intros args H1 H2. now apply wrapped_passthrough.
    + apply wrapped_passthrough; reflexivity.
Qed.

(** C10: a path and a plain options object, and nothing else, is not the
    path-then-options shape, which needs more than two arguments: the one
    call made is that of the underlying method, with both arguments as
    they came, and the factory is not called. *)
Theorem wrapped_path_and_options_only
    (method : HttpMethod) (p : string) (opts : Value) (w : World) :
  isOptionsObject opts = true ->
  pathThenOptions [VStr p; opts] = false /\
  optionsFirst [VStr p; opts] = false /\
  wrapped middlewareOf resultOf method [VStr p; opts] w =
    (Returned (resultOf method [VStr p; opts]),
     after w [OriginalMethod method [VStr p; opts]]).
Proof.
  intros _. split; [reflexivity |]. split; [reflexivity |].
  apply wrapped_passthrough; reflexivity.
Qed.

End Logged.

Lemma wrapped_canonical_registration_witness :
  let mw := fun (_ : HttpMethod) (_ : Value) (options : Value) =>
              VFunction 0 [("validates", getMember options "body")] in
  let handler := VFunction 1 [] in
  let w := mkWorld [] [] in
  last (calls (snd (wrapped mw (fun _ _ => VUndefined) POST
                [VObject [("path", VStr "/x"); ("body", VStr "S")]; handler] w))) =
  last (calls (snd (wrapped mw (fun _ _ => VUndefined) POST
                [VStr "/x"; VObject [("body", VStr "S")]; handler] w))) /\
  calls (snd (wrapped mw (fun _ _ => VUndefined) POST
                [VStr "/x"; VObject [("body", VStr "S")]; handler] w)) =
  [CreateEndpoint POST (VStr "/x") (VObject [("body", VStr "S")]);
   OriginalMethod POST
     [VStr "/x"; VFunction 0 [("validates", VStr "S")]; handler]].
Proof.
  intros mw handler w.
  destruct (wrapped_canonical_registration mw (fun _ _ => VUndefined) POST "/x"
              (VObject [("path", VStr "/x"); ("body", VStr "S")])
              (VObject [("body", VStr "S")]) handler [] w)
    as (E1 & E2 & _ & Hsame & _ & _).
  - reflexivity.
  - reflexivity.
  - discriminate.
  - reflexivity.
  - split.
    + apply Hsame. reflexivity.
    + rewrite E2. reflexivity.
Defined.

(** C7, as the specification words it, fails: the factory is shown the
options object of the call, which has the path member in the first shape
and not in the second; with a factory whose middleware depends on the
options it is shown, the two registrations are not the same. *)
Lemma wrapped_registrations_differ :
  last (calls (snd (wrapped (fun _ _ options => VFunction 0 [("options", options)])
                      (fun _ _ => VUndefined) POST
                      [VObject [("path", VStr "/x"); ("body", VStr "S")]; VFunction 1 []]
                      (mkWorld [] [])))) =
    Some (OriginalMethod POST
            [VStr "/x";
             VFunction 0 [("options", VObject [("path", VStr "/x"); ("body", VStr "S")])];
             VFunction 1 []]) /\
  last (calls (snd (wrapped (fun _ _ options => VFunction 0 [("options", options)])
                      (fun _ _ => VUndefined) POST
                      [VStr "/x"; VObject [("body", VStr "S")]; VFunction 1 []]
                      (mkWorld [] [])))) =
    Some (OriginalMethod POST
            [VStr "/x"; VFunction 0 [("options", VObject [("body", VStr "S")])];
             VFunction 1 []]) /\
  last (calls (snd (wrapped (fun _ _ options => VFunction 0 [("options", options)])
                      (fun _ _ => VUndefined) POST
                      [VObject [("path", VStr "/x"); ("body", VStr "S")]; VFunction 1 []]
                      (mkWorld [] [])))) <>
  last (calls (snd (wrapped (fun _ _ options => VFunction 0 [("options", options)])
                      (fun _ _ => VUndefined) POST
                      [VStr "/x"; VObject [("body", VStr "S")]; VFunction 1 []]
                      (mkWorld [] [])))).
Proof. split; [reflexivity |]. split; [reflexivity |]. vm_compute. discriminate. Qed.

Lemma wrapped_path_and_options_only_witness :
  wrapped (fun _ _ _ => VFunction 0 []) (fun _ _ => VUndefined) POST
    [VStr "/x"; VObject [("body", VStr "S")]] (mkWorld [] [])
  = (Returned VUndefined,
     mkWorld [] [OriginalMethod POST [VStr "/x"; VObject [("body", VStr "S")]]]).
Proof.
  apply (wrapped_path_and_options_only (fun _ _ _ => VFunction 0 [])
           (fun _ _ => VUndefined) POST "/x" (VObject [("body", VStr "S")])
           (mkWorld [] [])).
  reflexivity.
Defined.

(** *** The wrapped [use] *)

Lemma use_same originalUse args w :
  routerInstance_use originalUse args w = app_use originalUse args w.
Proof. reflexivity. Qed.

(** C8: the code misses the claim on a marked router that is not the
    value the wrapper examines. The declared overloads of [use] take a path
    and then any number of handlers or routers, or handlers and routers
    alone; yet a router attached after a plain handler, and a router
    followed by a handler, are forwarded to the underlying [use] and no
    ledger entry is recorded for them, by the application's [use] and by
    the router's. *)
Theorem use_later_router_not_recorded :
  let later := [VStr "/api"; VFunction 1 []; someRouter] in
  let first := [someRouter; VFunction 1 []] in
  let w := mkWorld [] [] in
  isRouterPlus someRouter = true /\
  In someRouter later /\ In someRouter first /\
  app_use (loggedUse (fun _ => VUndefined)) later w =
    (Returned VUndefined, mkWorld [] [OriginalUse later []]) /\
  routerInstance_use (loggedUse (fun _ => VUndefined)) later w =
    (Returned VUndefined, mkWorld [] [OriginalUse later []]) /\
  app_use (loggedUse (fun _ => VUndefined)) first w =
    (Returned VUndefined, mkWorld [] [OriginalUse first []]) /\
  routerInstance_use (loggedUse (fun _ => VUndefined)) first w =
    (Returned VUndefined, mkWorld [] [OriginalUse first []]).
Proof.
  cbv zeta. split; [reflexivity |]. split; [cbn; tauto |].
  split; [cbn; tauto |]. repeat split; reflexivity.
Qed.

(** Where the wrapped [use] does record: in a call of two or more
    arguments whose second argument carries both markers, and in a call of
    exactly one argument that carries them, the wrapped [use] of the
    application and that of a router append to the ledger the entry made
    by [registerMount] from the mount path (the first argument when the
    call has two or more arguments and it is a string, the root otherwise)
    and the registry of that value, and only then enter the underlying
    [use], once, with the arguments as they came: the underlying [use]
    finds the entry in the ledger. *)
Theorem use_records_mount
    (resultOf : list Value -> Value) (args : list Value) (w : World) :
  (2 <= length args)%nat \/ length args = 1%nat ->
  isRouterPlus (examined args) = true ->
  let entry :=
    mkMountInfo (normalizedPath (mountPathTaken args))
      (getMember (examined args) "_registry") in
  let ledger := mountRegistry w ++ [entry] in
  app_use (loggedUse resultOf) args w =
    (Returned (resultOf args),
     mkWorld ledger (calls w ++ [OriginalUse args ledger])) /\
  routerInstance_use (loggedUse resultOf) args w =
    (Returned (resultOf args),
     mkWorld ledger (calls w ++ [OriginalUse args ledger])) /\
  (typeof (arg 0 args) <> T_string \/ length args = 1%nat -> path entry = "/").
Proof.
  intros Hlen Hmark entry ledger.
  assert (Happ : app_use (loggedUse resultOf) args w =
                 (Returned (resultOf args),
                  mkWorld ledger (calls w ++ [OriginalUse args ledger]))).
  { subst ledger entry. unfold examined, mountPathTaken in *.
    unfold app_use. destruct Hlen as [Hlen | Hlen].
    - assert (E2 : (2 <=? length args)%nat = true) by now apply Nat.leb_le.
      assert (E1 : (length args =? 1)%nat = false) by (apply Nat.eqb_neq; lia).
      rewrite E2 in *. rewrite E1, Hmark. reflexivity.
    - rewrite Hlen in *. cbn [Nat.leb Nat.eqb andb] in *.
      rewrite Hmark. reflexivity. }
  split; [exact Happ |]. split; [rewrite use_same; exact Happ |].
  subst entry. cbn [path]. unfold mountPathTaken.
  intros [Hty | Hlen1].
  - destruct (2 <=? length args)%nat; [| reflexivity].
    destruct (arg 0 args); try reflexivity. now contradiction Hty.
  - rewrite Hlen1. reflexivity.
Qed.

Lemma use_records_mount_witness :
  app_use (loggedUse (fun _ => VUndefined)) [VStr "api/"; someRouter] (mkWorld [] []) =
    (Returned VUndefined,
     mkWorld [mkMountInfo "/api" (VObject [])]
       [OriginalUse [VStr "api/"; someRouter] [mkMountInfo "/api" (VObject [])]]).
Proof.
  destruct (use_records_mount (fun _ => VUndefined) [VStr "api/"; someRouter]
              (mkWorld [] [])) as (H & _ & _).
  - left. cbn. lia.
  - reflexivity.
  - exact H.
Defined.

(** X12: a call of the wrapped [use] whose examined value (the second
    argument of a call of two or more, the only argument of a call of one)
    does not carry both markers leaves the ledger alone and is forwarded all
    the same. *)
Lemma use_records_nothing
    (resultOf : list Value -> Value) (args : list Value) (w : World) :
  isRouterPlus (examined args) = false ->
  app_use (loggedUse resultOf) args w =
    (Returned (resultOf args),
     mkWorld (mountRegistry w) (calls w ++ [OriginalUse args (mountRegistry w)])).
Proof.
  intros Hmark. unfold examined in Hmark. unfold app_use.
  destruct (2 <=? length args)%nat eqn:E2.
  - assert (E1 : (length args =? 1)%nat = false).
    { apply Nat.eqb_neq. apply Nat.leb_le in E2. lia. }
    rewrite E1, Hmark. reflexivity.
  - rewrite Hmark, andb_false_r. reflexivity.
Qed.

End DispatcherFacts.

(** ** Properties of the composition *)

Module CompositionFacts.
Import JsString MountLedger Json Composition CompositionSpec.
Local Open Scope js_scope.

Lemma grows_refl baseRegistry h : grows baseRegistry h h.
Proof.
  split; [auto |]. split; [auto |].
  intros o Ho. exists []. rewrite Ho. destruct o as [g [l |]]; cbn; [| reflexivity].
  now rewrite app_nil_r.
Qed.

Lemma grows_trans baseRegistry h1 h2 h3 :
  grows baseRegistry h1 h2 -> grows baseRegistry h2 h3 -> grows baseRegistry h1 h3.
Proof.
  intros (O1 & R1 & B1) (O2 & R2 & B2). split; [auto |]. split.
  - intros r Hr. rewrite R2, R1; auto.
  - intros o Ho. destruct (B1 o Ho) as [add1 H1].
    destruct (B2 _ H1) as [add2 H2]. exists (add1 ++ add2).
    rewrite H2. cbn. destruct (definitions o); cbn; [| reflexivity].
    now rewrite app_assoc.
Qed.

Lemma growing_ret {A : Type} baseRegistry (a : A) : growing baseRegistry (ret a).
Proof. intros h. apply grows_refl. Qed.

Lemma growing_lift {A : Type} baseRegistry (c : Completion A) :
  growing baseRegistry (lift c).
Proof. intros h. apply grows_refl. Qed.

Lemma growing_bind {A B : Type} baseRegistry (m : JS A) (k : A -> JS B) :
  growing baseRegistry m -> (forall a, growing baseRegistry (k a)) ->
  growing baseRegistry (bind m k).
Proof.
  intros Hm Hk h. unfold bind. specialize (Hm h).
  destruct (m h) as [[a |] h']; cbn in *; [| exact Hm].
  eapply grows_trans; [exact Hm | apply Hk].
Qed.

Lemma growing_forEach {A : Type} baseRegistry (l : list A) (f : A -> JS unit) :
  (forall x, growing baseRegistry (f x)) -> growing baseRegistry (forEach l f).
Proof.
  intros Hf. induction l as [| x l IH]; cbn [forEach].
  - apply growing_ret.
  - apply growing_bind; auto.
Qed.

Lemma growing_getDef baseRegistry a : growing baseRegistry (getDef a).
Proof. intros h. unfold getDef. destruct (objects h !! a); apply grows_refl. Qed.

Lemma growing_definitionsOf baseRegistry r : growing baseRegistry (definitionsOf r).
Proof. intros h. apply grows_refl. Qed.

Lemma growing_rawRegistryOf baseRegistry r : growing baseRegistry (rawRegistryOf r).
Proof. intros h. apply grows_refl. Qed.

Lemma growing_getDefs baseRegistry l : growing baseRegistry (getDefs l).
Proof.
  induction l as [| a l IH]; cbn [getDefs].
  - apply growing_ret.
  - apply growing_bind; [apply growing_getDef |]. intros d.
    apply growing_bind; [exact IH |]. intros ds. apply growing_ret.
Qed.

Lemma growing_some baseRegistry r p : growing baseRegistry (some r p).
Proof.
  unfold some. apply growing_bind; [apply growing_definitionsOf |].
  intros [l |]; [| apply growing_lift].
  apply growing_bind; [apply growing_getDefs |]. intros objs. apply growing_lift.
Qed.

Lemma growing_allocDef baseRegistry d : growing baseRegistry (allocDef d).
Proof.
  intros h. unfold allocDef. cbn. split; [| split].
  - intros a d' Ha. cbn. now apply lookup_app_l_Some.
  - auto.
  - intros o Ho. exists []. cbn. rewrite Ho.
    destruct o as [g [l |]]; cbn; [| reflexivity]. now rewrite app_nil_r.
Qed.

Lemma growing_push baseRegistry a : growing baseRegistry (push baseRegistry a).
Proof.
  intros h. unfold push.
  destruct (registries h !! baseRegistry) as [o |] eqn:Ho; [| apply grows_refl].
  destruct (definitions o) as [ds |] eqn:Hds; [| apply grows_refl].
  cbn. split; [auto |]. split.
  - intros r Hr. cbn. now rewrite list_lookup_insert_ne.
  - intros o' Ho'. assert (o' = o) by congruence. subst o'.
    exists [a]. cbn. rewrite Hds. cbn.
    apply list_lookup_insert_eq. now apply lookup_lt_Some in Ho.
Qed.

Lemma growing_addFragment baseRegistry a def :
  growing baseRegistry (addFragment baseRegistry a def).
Proof.
  unfold addFragment. apply growing_bind; [apply growing_some |].
  intros found. destruct (negb found); [apply growing_push | apply growing_ret].
Qed.

(** Writing the object allocated last leaves the older ones alone. *)
Lemma grows_alloc_set baseRegistry h d d' :
  grows baseRegistry h
    (mkHeap (<[length (objects h) := d']> (objects h ++ [d])) (registries h)).
Proof.
  split; [| split].
  - intros a e Ha. cbn. rewrite list_lookup_insert_ne.
    + now apply lookup_app_l_Some.
    + apply lookup_lt_Some in Ha. lia.
  - auto.
  - intros o Ho. exists []. cbn. rewrite Ho.
    destruct o as [g [l |]]; cbn; [| reflexivity]. now rewrite app_nil_r.
Qed.

Lemma some_heap r p h : snd (some r p h) = h.
Proof.
  unfold some, bind, definitionsOf, lift.
  destruct (registries h !! r) as [o |]; [| reflexivity].
  destruct (definitions o) as [l |]; [| reflexivity].
  assert (G : snd (getDefs l h) = h).
  { clear. induction l as [| a l IH]; [reflexivity |].
    cbn [getDefs]. unfold bind, getDef.
    destruct (objects h !! a); [| reflexivity].
    destruct (getDefs l h) as [[ds |] h'] eqn:E; cbn in *; now subst. }
  destruct (getDefs l h) as [[ds |] h'] eqn:E; cbn in *; now subst.
Qed.

Lemma getDef_last h d :
  getDef (length (objects h)) (mkHeap (objects h ++ [d]) (registries h)) =
  (Normal d, mkHeap (objects h ++ [d]) (registries h)).
Proof.
  unfold getDef. cbn. now rewrite list_lookup_middle.
Qed.

Lemma growing_combineDefinition baseRegistry path a :
  growing baseRegistry (combineDefinition baseRegistry path a).
Proof.
  intros h. unfold combineDefinition. unfold bind at 1. unfold getDef at 1.
  destruct (objects h !! a) as [def |]; [| apply grows_refl].
  destruct (String.eqb (type def) "path"); [| apply growing_addFragment].
  unfold bind at 1. unfold allocDef.
  unfold bind at 1. unfold lift at 1.
  destruct (routePathOf def) as [routePath |]; [| apply (growing_allocDef _ def h)].
  unfold bind at 1. rewrite getDef_last.
  unfold bind at 1. unfold setDef. cbn [objects registries].
  match goal with
  | |- grows _ _ (snd (bind (some ?r ?p) ?k ?h2)) =>
      pose proof (some_heap r p h2) as Hs; unfold bind;
      destruct (some r p h2) as [[found |] h3]; cbn in Hs; subst h3
  end.
  - destruct (negb found).
    + eapply grows_trans; [apply grows_alloc_set | apply growing_push].
    + apply grows_alloc_set.
  - apply grows_alloc_set.
Qed.

Lemma growing_generateDefinition baseRegistry path a :
  growing baseRegistry (generateDefinition baseRegistry path a).
Proof.
  intros h. unfold generateDefinition. unfold bind at 1. unfold getDef at 1.
  destruct (objects h !! a) as [def |]; [| apply grows_refl].
  destruct (String.eqb (type def) "path"); [| apply growing_addFragment].
  unfold bind at 1. unfold allocDef.
  unfold bind at 1. unfold lift at 1.
  destruct (routePathOf def) as [routePath |]; [| apply (growing_allocDef _ def h)].
  unfold bind at 1. rewrite getDef_last.
  unfold bind at 1. unfold lift at 1.
  destruct (assignMember (schema def) "path" _) as [schema' |];
    [| apply (growing_allocDef _ def h)].
  unfold bind at 1. unfold setDef. cbn [objects registries].
  eapply grows_trans; [apply grows_alloc_set | apply growing_push].
Qed.

Lemma growing_combineRegistries mountRegistry baseRegistry :
  growing baseRegistry (combineRegistries mountRegistry baseRegistry).
Proof.
  unfold combineRegistries. apply growing_bind; [| intros; apply growing_ret].
  apply growing_forEach. intros m. unfold combineMount.
  destruct (registry m) as [r |]; [| apply growing_ret].
  apply growing_bind; [apply growing_definitionsOf |].
  intros [l |]; [| apply growing_ret].
  destruct (String.eqb (path m) "/").
  - apply growing_forEach. intros a.
    apply growing_bind; [apply growing_getDef |]. intros def.
    apply growing_addFragment.
  - apply growing_forEach. intros a. apply growing_combineDefinition.
Qed.

Lemma growing_generateOpenAPIDocument mountRegistry baseRegistry :
  growing baseRegistry (generateOpenAPIDocument mountRegistry baseRegistry).
Proof.
  unfold generateOpenAPIDocument. apply growing_bind; [| intros; apply growing_ret].
  apply growing_forEach. intros m. unfold generateMount.
  destruct (registry m) as [r |]; [| apply growing_ret].
  apply growing_bind; [apply growing_rawRegistryOf |].
  intros [raw |]; [| apply growing_ret].
  apply growing_bind; [apply growing_definitionsOf |].
  intros [l |]; [| apply growing_ret].
  apply growing_forEach. intros a. apply growing_generateDefinition.
Qed.

Lemma definitionsAt_unchanged baseRegistry h h' r :
  grows baseRegistry h h' -> r <> baseRegistry -> closedAt h r ->
  definitionsAt h' r = definitionsAt h r.
Proof.
  intros (HO & HR & _) Hr Hclosed. unfold definitionsAt. rewrite (HR r Hr).
  destruct (registries h !! r) as [o |] eqn:Ho; [| reflexivity].
  destruct (definitions o) as [l |] eqn:Hl; [| reflexivity].
  assert (Hin : forall a, a ∈ l -> (a < length (objects h))%nat).
  { intros a Ha. exact (Hclosed o l a Ho Hl Ha). }
  clear Hl. induction l as [| a l IH]; [reflexivity |].
  cbn [omap list_omap].
  destruct (lookup_lt_is_Some_2 (objects h) a) as [d Hd].
  { apply Hin. left. }
  rewrite (HO a d Hd), Hd. f_equal. apply IH.
  intros b Hb. apply Hin. now right.
Qed.

(** C9: composition, by [combineRegistries] and by the
    [generateOpenAPIDocument] override, changes no registry object but the
    base and no definition object that was there: the rewritten path is
    written into the copy allocated for it. So the definitions array of a
    mounted registry other than the base holds the same addresses, the
    objects at them are the ones they were, with the paths they had, and the
    base has its former definitions followed by those pushed. This holds
    also for a run that throws. *)
Theorem composition_leaves_mounted_registries
    (mountRegistry : list (MountInfo (option Addr)))
    (baseRegistry r : Addr) (h : Heap) :
  r <> baseRegistry ->
  forall h',
    h' = snd (combineRegistries mountRegistry baseRegistry h) \/
    h' = snd (generateOpenAPIDocument mountRegistry baseRegistry h) ->
    registries h' !! r = registries h !! r /\
    (forall a d, objects h !! a = Some d -> objects h' !! a = Some d) /\
    (closedAt h r -> definitionsAt h' r = definitionsAt h r) /\
    (forall o, registries h !! baseRegistry = Some o ->
       exists added,
         registries h' !! baseRegistry =
         Some (mkRegistryObj (getRawRegistry o) (pushed (definitions o) added))).
Proof.
  intros Hr h' Hh'.
  assert (G : grows baseRegistry h h').
  { destruct Hh' as [-> | ->].
    - apply growing_combineRegistries.
    - apply growing_generateOpenAPIDocument. }
  split; [now apply G |]. split; [now apply G |]. split.
  - intros Hc. now apply (definitionsAt_unchanged baseRegistry).
  - now apply G.
Qed.

Lemma composition_leaves_mounted_registries_witness :
  definitionsAt (snd (combineRegistries [mountedAt "/api" 1] 0 freshStore)) 1
  = [usersRoute] /\
  definitionsAt (snd (combineRegistries [mountedAt "/api" 1] 0 freshStore)) 0
  = [pathDefinition "get" "/api/users" [("summary", JStr "List users")]].
Proof.
  pose proof (composition_leaves_mounted_registries [mountedAt "/api" 1] 0 1
                freshStore) as H.
  destruct (H ltac:(discriminate) _ (or_introl eq_refl)) as (_ & _ & Hdefs & _).
  split.
  - rewrite Hdefs; [reflexivity |].
    intros o l a Ho Hl Ha. cbn in Ho. injection Ho as <-. cbn in Hl.
    injection Hl as <-. apply list_elem_of_singleton in Ha. subst a. cbn. lia.
  - reflexivity.
Defined.

(** C1: the composition done by the [generateOpenAPIDocument] override
    misses the claim. The base documents [GET /api/users]; a router with
    [GET /users] is mounted at [/api]; the override pushes the rewritten
    definition all the same and the base ends with two definitions for
    [GET /api/users], where [combineRegistries] drops the second. *)
Theorem generateOpenAPIDocument_pushes_taken_path :
  definitionsAt (snd (generateOpenAPIDocument [mountedAt "/api" 1] 0 takenStore)) 0
  = [pathDefinition "get" "/api/users" [("summary", JStr "Base")];
     pathDefinition "get" "/api/users" [("summary", JStr "List users")]] /\
  definitionsAt (snd (combineRegistries [mountedAt "/api" 1] 0 takenStore)) 0
  = [pathDefinition "get" "/api/users" [("summary", JStr "Base")]].
Proof. split; vm_compute; reflexivity. Qed.

(** C2: [combineRegistries] misses the claim at the root. The base and a
    router mounted at [/] both document [GET /x], with different
    summaries; each collection keeps the invariant, and the base does not
    after the composition: the root branch compares whole schemas where the
    other branch compares method and path. *)
Theorem combineRegistries_root_breaks_invariant :
  noClash (definitionsAt rootStore 0) = true /\
  noClash (definitionsAt rootStore 1) = true /\
  fst (combineRegistries [mountedAt "/" 1] 0 rootStore) = Normal 0%nat /\
  definitionsAt (snd (combineRegistries [mountedAt "/" 1] 0 rootStore)) 0
  = [pathDefinition "get" "/x" [("summary", JStr "A")];
     pathDefinition "get" "/x" [("summary", JStr "B")]] /\
  noClash (definitionsAt (snd (combineRegistries [mountedAt "/" 1] 0 rootStore)) 0)
  = false.
Proof. repeat split; vm_compute; reflexivity. Qed.

(** C3: the composition done by the [generateOpenAPIDocument] override
    misses the claim. With the same router recorded twice at [/api] the
    second entry adds a second [GET /api/users], and so does a second run
    over a ledger with the one entry; [combineRegistries] adds nothing the
    second time. *)
Theorem generateOpenAPIDocument_not_idempotent :
  let once := snd (generateOpenAPIDocument [mountedAt "/api" 1] 0 freshStore) in
  length (definitionsAt once 0) = 1%nat /\
  length (definitionsAt
            (snd (generateOpenAPIDocument [mountedAt "/api" 1; mountedAt "/api" 1]
                    0 freshStore)) 0) = 2%nat /\
  length (definitionsAt
            (snd (generateOpenAPIDocument [mountedAt "/api" 1] 0 once)) 0) = 2%nat /\
  length (definitionsAt
            (snd (combineRegistries [mountedAt "/api" 1; mountedAt "/api" 1]
                    0 freshStore)) 0) = 1%nat.
Proof. repeat split; vm_compute; reflexivity. Qed.

(** *** What [combineRegistries] keeps away from the root *)

Lemma keeps_ret {A : Type} I (a : A) : keeps I (ret a).
Proof. intros h Hh. exact Hh. Qed.

Lemma keeps_bind {A B : Type} I (m : JS A) (k : A -> JS B) :
  keeps I m -> (forall a, keeps I (k a)) -> keeps I (bind m k).
Proof.
  intros Hm Hk h Hh. unfold bind. specialize (Hm h Hh).
  destruct (m h) as [[a |] h']; cbn in *; [| exact Hm].
  now apply Hk.
Qed.

Lemma keeps_forEach {A : Type} I (l : list A) (f : A -> JS unit) :
  (forall x, x ∈ l -> keeps I (f x)) -> keeps I (forEach l f).
Proof.
  induction l as [| x l IH]; intros Hf; cbn [forEach].
  - apply keeps_ret.
  - apply keeps_bind.
    + apply Hf. left.
    + intros _. apply IH. intros y Hy. apply Hf. now right.
Qed.

Lemma keeps_definitionsOf I r : keeps I (definitionsOf r).
Proof. intros h Hh. exact Hh. Qed.

Lemma noClash_snoc l d :
  noClash (l ++ [d]) = noClash l && forallb (fun e => negb (clash d e)) l.
Proof.
  induction l as [| x l IH]; [reflexivity |].
  cbn [app noClash forallb]. rewrite IH, forallb_app. cbn [forallb].
  destruct (forallb (fun d' => negb (clash d' x)) l), (negb (clash d x)),
    (noClash l), (forallb (fun e => negb (clash d e)) l); reflexivity.
Qed.

Lemma someDef_false p l :
  someDef p l = Normal false -> forall e, e ∈ l -> p e = Normal false.
Proof.
  induction l as [| x l IH]; intros H e He.
  - inversion He.
  - cbn [someDef] in H. destruct (p x) as [[|] |] eqn:Hx; try discriminate.
    apply elem_of_cons in He as [-> | He]; [exact Hx | now apply IH].
Qed.

Lemma getDefs_closed h l :
  (forall a, a ∈ l -> (a < length (objects h))%nat) ->
  getDefs l h = (Normal (omap (fun a => objects h !! a) l), h).
Proof.
  induction l as [| a l IH]; intros Hin; [reflexivity |].
  cbn [getDefs]. unfold bind at 1. unfold getDef.
  destruct (lookup_lt_is_Some_2 (objects h) a) as [d Hd].
  { apply Hin. left. }
  rewrite Hd. unfold bind at 1. rewrite IH.
  - cbn. now rewrite Hd.
  - intros b Hb. apply Hin. now right.
Qed.

(** On a closed base, [some] is [someDef] on its definition objects. *)
Lemma some_closed h baseRegistry p o l :
  closedAt h baseRegistry ->
  registries h !! baseRegistry = Some o -> definitions o = Some l ->
  some baseRegistry p h = (someDef p (definitionsAt h baseRegistry), h).
Proof.
  intros Hc Ho Hl. unfold some, bind, definitionsOf, definitionsAt.
  rewrite Ho, Hl. rewrite getDefs_closed; [reflexivity |].
  intros a Ha. exact (Hc o l a Ho Hl Ha).
Qed.

Lemma some_no_array h baseRegistry p :
  (forall o l, registries h !! baseRegistry = Some o -> definitions o <> Some l) ->
  some baseRegistry p h = (TypeError, h).
Proof.
  intros Hno. unfold some, bind, definitionsOf.
  destruct (registries h !! baseRegistry) as [o |] eqn:Ho; [| reflexivity].
  destruct (definitions o) as [l |] eqn:Hl; [| reflexivity].
  now destruct (Hno o l eq_refl).
Qed.

(** Objects added past the end do not show in a closed registry. *)
Lemma wellKept_extend baseRegistry h objs' :
  (forall a, (a < length (objects h))%nat -> objs' !! a = objects h !! a) ->
  (length (objects h) <= length objs')%nat ->
  closedAt h baseRegistry ->
  closedAt (mkHeap objs' (registries h)) baseRegistry /\
  definitionsAt (mkHeap objs' (registries h)) baseRegistry =
  definitionsAt h baseRegistry.
Proof.
  intros Hsame Hlen Hc. split.
  - intros o l a Ho Hl Ha. cbn in *. specialize (Hc o l a Ho Hl Ha). lia.
  - unfold definitionsAt. cbn [registries objects].
    destruct (registries h !! baseRegistry) as [o |] eqn:Ho; [| reflexivity].
    destruct (definitions o) as [l |] eqn:Hl; [| reflexivity].
    assert (Hin : forall a, a ∈ l -> (a < length (objects h))%nat).
    { intros a Ha. exact (Hc o l a Ho Hl Ha). }
    clear Hl. induction l as [| a l IH]; [reflexivity |].
    cbn [omap list_omap]. rewrite Hsame by (apply Hin; left).
    destruct (objects h !! a); [f_equal |]; apply IH; intros b Hb; apply Hin; now right.
Qed.

Lemma keeps_alloc baseRegistry h d :
  wellKept baseRegistry h ->
  wellKept baseRegistry (mkHeap (objects h ++ [d]) (registries h)).
Proof.
  intros [Hc Hn].
  destruct (wellKept_extend baseRegistry h (objects h ++ [d])) as [Hc' Hd']; auto.
  - intros a Ha. now apply lookup_app_l.
  - rewrite length_app. lia.
  - split; [exact Hc' | now rewrite Hd'].
Qed.

Lemma alloc_set_extend baseRegistry h d d' :
  closedAt h baseRegistry ->
  closedAt (mkHeap (<[length (objects h) := d']> (objects h ++ [d])) (registries h))
    baseRegistry /\
  definitionsAt (mkHeap (<[length (objects h) := d']> (objects h ++ [d])) (registries h))
    baseRegistry = definitionsAt h baseRegistry.
Proof.
  intros Hc. apply wellKept_extend; auto.
  - intros a Ha. rewrite list_lookup_insert_ne by lia. now apply lookup_app_l.
  - rewrite length_insert, length_app. lia.
Qed.

Lemma alloc_set_last h d d' :
  (<[length (objects h) := d']> (objects h ++ [d])) !! length (objects h) = Some d'.
Proof. apply list_lookup_insert_eq. rewrite length_app. cbn. lia. Qed.

(** Pushing the address of an object that clashes with none of the base
keeps the base well kept. *)
Lemma keeps_push baseRegistry h a d :
  wellKept baseRegistry h ->
  objects h !! a = Some d ->
  forallb (fun e => negb (clash d e)) (definitionsAt h baseRegistry) = true ->
  wellKept baseRegistry (snd (push baseRegistry a h)).
Proof.
  intros [Hc Hn] Ha Hd. unfold push.
  destruct (registries h !! baseRegistry) as [o |] eqn:Ho; [| now split].
  destruct (definitions o) as [l |] eqn:Hl; [| now split].
  assert (Hlt : (baseRegistry < length (registries h))%nat) by now apply lookup_lt_Some in Ho.
  cbn [snd]. split.
  - intros o' l' b Ho' Hl' Hb. cbn in *.
    rewrite list_lookup_insert_eq in Ho' by exact Hlt.
    injection Ho' as <-. cbn in Hl'. injection Hl' as <-.
    apply elem_of_app in Hb as [Hb | Hb].
    + exact (Hc o l b Ho Hl Hb).
    + apply list_elem_of_singleton in Hb. subst b. now apply lookup_lt_Some in Ha.
  - unfold definitionsAt in *. cbn [registries objects].
    rewrite list_lookup_insert_eq by exact Hlt. cbn [definitions].
    rewrite Ho, Hl in Hn, Hd.
    rewrite omap_app. cbn [omap list_omap]. rewrite Ha.
    rewrite noClash_snoc, Hn, Hd. reflexivity.
Qed.

Lemma sameFragment_no_clash def e :
  isPath def = false -> sameFragment def e = Normal false -> clash def e = false.
Proof.
  intros Hp H. unfold sameFragment in H. injection H as H.
  unfold clash, isNamed, isAnonymous. rewrite Hp. cbn [andb negb orb].
  destruct (String.eqb (type e) (type def)); cbn [andb] in H |- *.
  - destruct (truthy_name (name def)); cbn [andb negb orb]; rewrite H;
      now rewrite !andb_false_r.
  - now rewrite !andb_false_r.
Qed.

Lemma getMember_spread v k x :
  Composition.getMember v k = Normal x -> assoc k (spread v) = x.
Proof. destruct v; cbn; intros H; now inversion H. Qed.

Lemma samePath_no_clash adj e :
  isPath adj = true -> samePath adj e = Normal false -> clash adj e = false.
Proof.
  intros Hp H. unfold clash, isNamed, isAnonymous. rewrite Hp.
  cbn [andb negb orb]. rewrite !orb_false_r.
  unfold samePath in H. unfold isPath at 1.
  destruct (String.eqb (type e) "path"); [| reflexivity]. cbn [andb].
  destruct (Composition.getMember (schema e) "path") as [bp |] eqn:Ebp; [| discriminate].
  destruct (Composition.getMember (schema adj) "path") as [ap |] eqn:Eap; [| discriminate].
  unfold pathOf, methodOf.
  rewrite (getMember_spread _ _ _ Ebp), (getMember_spread _ _ _ Eap).
  destruct (strict_eq bp ap); [| reflexivity]. cbn [andb].
  destruct (Composition.getMember (schema e) "method") as [bm |] eqn:Ebm; [| discriminate].
  destruct (Composition.getMember (schema adj) "method") as [am |] eqn:Eam; [| discriminate].
  rewrite (getMember_spread _ _ _ Ebm), (getMember_spread _ _ _ Eam).
  now injection H.
Qed.

Lemma forallb_no_clash (p : DefinitionObj -> Completion bool) d l :
  (forall e, p e = Normal false -> clash d e = false) ->
  someDef p l = Normal false ->
  forallb (fun e => negb (clash d e)) l = true.
Proof.
  intros Hp Hs. apply forallb_forall. intros e He.
  apply list_elem_of_In in He.
  rewrite (Hp e); [reflexivity |]. now apply (someDef_false p l).
Qed.

(** The test and the push of the base, for an object [d] of the store
whose clashes the test [p] finds. *)
Lemma keeps_test_push baseRegistry h a d (p : DefinitionObj -> Completion bool) :
  wellKept baseRegistry h ->
  objects h !! a = Some d ->
  (forall e, p e = Normal false -> clash d e = false) ->
  wellKept baseRegistry
    (snd (bind (some baseRegistry p)
            (fun found : bool => if negb found then push baseRegistry a else ret tt) h)).
Proof.
  intros Hw Ha Hp. unfold bind.
  destruct (registries h !! baseRegistry) as [o |] eqn:Ho.
  - destruct (definitions o) as [l |] eqn:Hl.
    + rewrite (some_closed h baseRegistry p o l (proj1 Hw) Ho Hl).
      destruct (someDef p (definitionsAt h baseRegistry)) as [[|] |] eqn:Hs;
        cbn [negb snd]; try exact Hw.
      apply (keeps_push baseRegistry h a d Hw Ha).
      now apply (forallb_no_clash p).
    + rewrite some_no_array; [exact Hw |]. intros o' l' Ho'. congruence.
  - rewrite some_no_array; [exact Hw |]. intros o' l' Ho'. congruence.
Qed.

Lemma keeps_addFragment baseRegistry h a def :
  wellKept baseRegistry h ->
  objects h !! a = Some def -> isPath def = false ->
  wellKept baseRegistry (snd (addFragment baseRegistry a def h)).
Proof.
  intros Hw Ha Hp. unfold addFragment.
  apply (keeps_test_push baseRegistry h a def); auto.
  intros e He. now apply sameFragment_no_clash.
Qed.

Lemma keeps_combineDefinition baseRegistry path a :
  keeps (wellKept baseRegistry) (combineDefinition baseRegistry path a).
Proof.
  intros h Hw. unfold combineDefinition. unfold bind at 1. unfold getDef at 1.
  destruct (objects h !! a) as [def |] eqn:Ha; [| exact Hw].
  destruct (String.eqb (type def) "path") eqn:Hty;
    [| now apply keeps_addFragment].
  unfold bind at 1. unfold allocDef.
  unfold bind at 1. unfold lift at 1.
  destruct (routePathOf def) as [routePath |]; [| now apply keeps_alloc].
  unfold bind at 1. rewrite getDef_last.
  unfold bind at 1. unfold setDef. cbn [objects registries type name schema].
  set (adj := mkDefinitionObj _ _ _).
  apply (keeps_test_push baseRegistry _ (length (objects h)) adj).
  - destruct Hw as [Hc Hn].
    destruct (alloc_set_extend baseRegistry h def adj Hc) as [Hc' Hd'].
    split; [exact Hc' | now rewrite Hd'].
  - apply alloc_set_last.
  - intros e He. apply samePath_no_clash; [exact Hty | exact He].
Qed.

(** X22: composition by [combineRegistries] from a ledger without a mount at
the root keeps a closed base within the invariant of the data model: what
is pushed clashes with nothing the base has. *)
Lemma combineRegistries_keeps_invariant mountRegistry baseRegistry h :
  (forall m, m ∈ mountRegistry -> path m <> "/") ->
  wellKept baseRegistry h ->
  wellKept baseRegistry (snd (combineRegistries mountRegistry baseRegistry h)).
Proof.
  intros Hroot. revert h. change (keeps (wellKept baseRegistry)
                                    (combineRegistries mountRegistry baseRegistry)).
  unfold combineRegistries. apply keeps_bind; [| intros; apply keeps_ret].
  apply keeps_forEach. intros m Hm. unfold combineMount.
  destruct (registry m) as [r |]; [| apply keeps_ret].
  apply keeps_bind; [apply keeps_definitionsOf |].
  intros [l |]; [| apply keeps_ret].
  destruct (String.eqb_spec (path m) "/") as [E | _].
  - now destruct (Hroot m Hm).
  - apply keeps_forEach. intros a _. apply keeps_combineDefinition.
Qed.

(** *** A second composition by [combineRegistries] adds nothing *)

Lemma someDef_app_true p l x :
  someDef p l = Normal true -> someDef p (l ++ x) = Normal true.
Proof.
  induction l as [| d l IH]; cbn [someDef app]; intros H; [discriminate |].
  destruct (p d) as [[|] |]; auto.
Qed.

Lemma someDef_snoc p l d :
  someDef p l = Normal false -> p d = Normal true ->
  someDef p (l ++ [d]) = Normal true.
Proof.
  induction l as [| e l IH]; cbn [someDef app]; intros H Hd.
  - now rewrite Hd.
  - destruct (p e) as [[|] |]; auto; discriminate.
Qed.

Lemma push_ready baseRegistry h a d :
  ready baseRegistry h -> objects h !! a = Some d ->
  fst (push baseRegistry a h) = Normal tt /\
  ready baseRegistry (snd (push baseRegistry a h)) /\
  definitionsAt (snd (push baseRegistry a h)) baseRegistry =
  definitionsAt h baseRegistry ++ [d].
Proof.
  intros (Hc & o & l & Ho & Hl) Ha. unfold push. rewrite Ho, Hl. cbn [fst snd].
  assert (Hlt : (baseRegistry < length (registries h))%nat) by now apply lookup_lt_Some in Ho.
  split; [reflexivity |]. split; [split |].
  - intros o' l' b Ho' Hl' Hb. cbn in *.
    rewrite list_lookup_insert_eq in Ho' by exact Hlt.
    injection Ho' as <-. cbn in Hl'. injection Hl' as <-.
    apply elem_of_app in Hb as [Hb | Hb].
    + exact (Hc o l b Ho Hl Hb).
    + apply list_elem_of_singleton in Hb. subst b. now apply lookup_lt_Some in Ha.
  - eexists _, _. cbn. split; [now apply list_lookup_insert_eq | reflexivity].
  - unfold definitionsAt. cbn [registries objects].
    rewrite list_lookup_insert_eq by exact Hlt. cbn [definitions].
    rewrite Ho, Hl, omap_app. cbn [omap list_omap]. now rewrite Ha.
Qed.

(** The test and the push, on a base that is ready. *)
Lemma test_push_spec baseRegistry h a d (p : DefinitionObj -> Completion bool) :
  ready baseRegistry h -> objects h !! a = Some d ->
  let run := bind (some baseRegistry p)
               (fun found : bool => if negb found then push baseRegistry a else ret tt) h in
  ready baseRegistry (snd run) /\
  match someDef p (definitionsAt h baseRegistry) with
  | Normal false =>
      fst run = Normal tt /\
      definitionsAt (snd run) baseRegistry = definitionsAt h baseRegistry ++ [d]
  | Normal true =>
      fst run = Normal tt /\
      definitionsAt (snd run) baseRegistry = definitionsAt h baseRegistry
  | TypeError =>
      fst run = TypeError /\
      definitionsAt (snd run) baseRegistry = definitionsAt h baseRegistry
  end.
Proof.
  intros Hr Ha run. subst run. unfold bind.
  destruct Hr as (Hc & o & l & Ho & Hl).
  rewrite (some_closed h baseRegistry p o l Hc Ho Hl).
  assert (Hr : ready baseRegistry h) by (split; eauto).
  destruct (someDef p (definitionsAt h baseRegistry)) as [[|] |];
    cbn [negb fst snd ret]; try (split; [exact Hr | split; reflexivity]).
  destruct (push_ready baseRegistry h a d Hr Ha) as (H1 & H2 & H3). auto.
Qed.

Lemma sameFragment_self def : sameFragment def def = Normal true.
Proof.
  unfold sameFragment. rewrite !String.eqb_refl. cbn [andb].
  destruct (name def) as [n |]; cbn; [| reflexivity].
  rewrite String.eqb_refl. now destruct (negb _).
Qed.

Lemma assoc_set_member_eq k v ms : assoc k (set_member k v ms) = Some v.
Proof.
  induction ms as [| [k' v'] ms IH]; cbn.
  - now rewrite String.eqb_refl.
  - destruct (String.eqb k' k) eqn:E; cbn; now rewrite E.
Qed.

Lemma assoc_set_member_ne k k' v ms :
  k <> k' -> assoc k' (set_member k v ms) = assoc k' ms.
Proof.
  intros Hne. induction ms as [| [k0 v0] ms IH]; cbn.
  - destruct (String.eqb_spec k k'); [contradiction | reflexivity].
  - destruct (String.eqb_spec k0 k) as [-> | E]; cbn.
    + destruct (String.eqb_spec k k'); [contradiction | reflexivity].
    + now rewrite IH.
Qed.

Lemma samePath_self path def routePath :
  String.eqb (type def) "path" = true -> plainMethod def ->
  samePath (adjustedFor path def routePath) (adjustedFor path def routePath) = Normal true.
Proof.
  intros Hty Hm. unfold samePath, adjustedFor. cbn [type schema Composition.getMember].
  rewrite Hty, assoc_set_member_eq. cbn [strict_eq]. rewrite String.eqb_refl.
  rewrite assoc_set_member_ne by discriminate. exact (f_equal Normal Hm).
Qed.

Lemma test_push_post baseRegistry h a d (p : DefinitionObj -> Completion bool) :
  ready baseRegistry h -> objects h !! a = Some d ->
  let run := bind (some baseRegistry p)
               (fun found : bool => if negb found then push baseRegistry a else ret tt) h in
  ready baseRegistry (snd run) /\
  (exists x, definitionsAt (snd run) baseRegistry = definitionsAt h baseRegistry ++ x) /\
  (fst run = Normal tt -> p d = Normal true ->
   someDef p (definitionsAt (snd run) baseRegistry) = Normal true) /\
  (someDef p (definitionsAt h baseRegistry) = Normal true ->
   definitionsAt (snd run) baseRegistry = definitionsAt h baseRegistry).
Proof.
  intros Hr Ha run.
  destruct (test_push_spec baseRegistry h a d p Hr Ha) as [Hr' Hcase].
  fold run in Hr', Hcase. split; [exact Hr' |].
  destruct (someDef p (definitionsAt h baseRegistry)) as [[|] |] eqn:Hs;
    destruct Hcase as [Hfst Hdefs]; rewrite Hdefs.
  - split; [exists []; now rewrite app_nil_r |]. split; auto.
  - split; [now exists [d] |]. split; [| discriminate].
    intros _ Hd. now apply someDef_snoc.
  - split; [exists []; now rewrite app_nil_r |]. split; [| discriminate].
    rewrite Hfst. discriminate.
Qed.

Lemma ready_alloc baseRegistry h d :
  ready baseRegistry h ->
  ready baseRegistry (mkHeap (objects h ++ [d]) (registries h)) /\
  definitionsAt (mkHeap (objects h ++ [d]) (registries h)) baseRegistry =
  definitionsAt h baseRegistry.
Proof.
  intros (Hc & Harr).
  destruct (wellKept_extend baseRegistry h (objects h ++ [d])) as [Hc' Hd']; auto.
  - intros a Ha. now apply lookup_app_l.
  - rewrite length_app. lia.
  - split; [split |]; auto.
Qed.

Lemma ready_alloc_set baseRegistry h d d' :
  ready baseRegistry h ->
  ready baseRegistry
    (mkHeap (<[length (objects h) := d']> (objects h ++ [d])) (registries h)) /\
  definitionsAt
    (mkHeap (<[length (objects h) := d']> (objects h ++ [d])) (registries h))
    baseRegistry = definitionsAt h baseRegistry.
Proof.
  intros (Hc & Harr).
  destruct (alloc_set_extend baseRegistry h d d' Hc) as [Hc' Hd'].
  split; [split |]; auto.
Qed.

(** The path branch of [combineDefinition], run: the copy is allocated and
rewritten, then offered to the base under the test on method and path. *)
Lemma combineDefinition_path baseRegistry path a h def :
  objects h !! a = Some def -> String.eqb (type def) "path" = true ->
  combineDefinition baseRegistry path a h =
  match routePathOf def with
  | Normal routePath =>
      bind (some baseRegistry (samePath (adjustedFor path def routePath)))
        (fun found : bool =>
           if negb found then push baseRegistry (length (objects h)) else ret tt)
        (mkHeap (<[length (objects h) := adjustedFor path def routePath]>
                   (objects h ++ [def])) (registries h))
  | TypeError => (TypeError, mkHeap (objects h ++ [def]) (registries h))
  end.
Proof.
  intros Ha Hty. unfold combineDefinition. unfold bind at 1. unfold getDef at 1.
  rewrite Ha, Hty.
  unfold bind at 1. unfold allocDef.
  unfold bind at 1. unfold lift at 1.
  destruct (routePathOf def) as [routePath |]; [| reflexivity].
  unfold bind at 1. rewrite getDef_last.
  unfold bind at 1. unfold setDef. reflexivity.
Qed.

(** One step of the inner loop: the base stays ready and keeps what it
had; when the step completes, the base has a definition that the test for
this definition finds; when it had one already, nothing is pushed. *)
Lemma mountStep_spec baseRegistry path a h :
  ready baseRegistry h ->
  let run := mountStep baseRegistry path a h in
  ready baseRegistry (snd run) /\
  (exists x, definitionsAt (snd run) baseRegistry = definitionsAt h baseRegistry ++ x) /\
  (fst run = Normal tt ->
   exists def, objects h !! a = Some def /\
     (plainMethod def ->
      someDef (probe path def) (definitionsAt (snd run) baseRegistry) = Normal true)) /\
  (forall def, objects h !! a = Some def ->
     someDef (probe path def) (definitionsAt h baseRegistry) = Normal true ->
     definitionsAt (snd run) baseRegistry = definitionsAt h baseRegistry).
Proof.
  intros Hr run.
  assert (Hstop : forall c, run = (c, h) -> c <> Normal tt ->
            (forall def, objects h !! a = Some def -> False) ->
            ready baseRegistry (snd run) /\
            (exists x, definitionsAt (snd run) baseRegistry =
                       definitionsAt h baseRegistry ++ x) /\
            (fst run = Normal tt ->
             exists def, objects h !! a = Some def /\
               (plainMethod def ->
                someDef (probe path def) (definitionsAt (snd run) baseRegistry)
                = Normal true)) /\
            (forall def, objects h !! a = Some def ->
               someDef (probe path def) (definitionsAt h baseRegistry) = Normal true ->
               definitionsAt (snd run) baseRegistry = definitionsAt h baseRegistry)).
  { intros c -> Hc Hno. cbn [fst snd]. split; [exact Hr |].
    split; [exists []; now rewrite app_nil_r |]. split; [intros E; now destruct Hc |].
    intros def Hdef. now destruct (Hno def Hdef). }
  assert (Hfrag : forall def, objects h !! a = Some def ->
            probe path def = sameFragment def ->
            run = addFragment baseRegistry a def h ->
            ready baseRegistry (snd run) /\
            (exists x, definitionsAt (snd run) baseRegistry =
                       definitionsAt h baseRegistry ++ x) /\
            (fst run = Normal tt ->
             exists def, objects h !! a = Some def /\
               (plainMethod def ->
                someDef (probe path def) (definitionsAt (snd run) baseRegistry)
                = Normal true)) /\
            (forall def, objects h !! a = Some def ->
               someDef (probe path def) (definitionsAt h baseRegistry) = Normal true ->
               definitionsAt (snd run) baseRegistry = definitionsAt h baseRegistry)).
  { intros def Hdef Hprobe ->. unfold addFragment.
    destruct (test_push_post baseRegistry h a def (sameFragment def) Hr Hdef)
      as (H1 & H2 & H3 & H4).
    split; [exact H1 |]. split; [exact H2 |]. split.
    - intros Hn. exists def. split; [exact Hdef |]. intros _.
      rewrite Hprobe. apply H3; [exact Hn | apply sameFragment_self].
    - intros def' Hdef' Hs. assert (def' = def) by congruence. subst def'.
      rewrite Hprobe in Hs. now apply H4. }
  subst run. unfold mountStep, probe in *.
  destruct (String.eqb path "/") eqn:Hroot.
  - destruct (objects h !! a) as [def |] eqn:Ha.
    + apply (Hfrag def); [reflexivity | reflexivity |].
      unfold bind, getDef. now rewrite Ha.
    + apply (Hstop TypeError); [| done | done].
      unfold bind, getDef. now rewrite Ha.
  - destruct (objects h !! a) as [def |] eqn:Ha.
    2:{ apply (Hstop TypeError); [| done | done].
        unfold combineDefinition, bind, getDef. now rewrite Ha. }
    destruct (String.eqb (type def) "path") eqn:Hty.
    2:{ apply (Hfrag def); [reflexivity | now rewrite Hty |].
        unfold combineDefinition. unfold bind at 1. unfold getDef at 1.
        now rewrite Ha, Hty. }
    clear Hstop Hfrag.
    rewrite (combineDefinition_path baseRegistry path a h def Ha Hty).
    destruct (routePathOf def) as [routePath |] eqn:Hrp.
    2:{ cbn [fst snd].
        destruct (ready_alloc baseRegistry h def Hr) as [Hr1 Hd1].
        split; [exact Hr1 |]. rewrite Hd1.
        split; [exists []; now rewrite app_nil_r |]. split; [discriminate | auto]. }
    set (adj := adjustedFor path def routePath).
    set (h2 := mkHeap (<[length (objects h) := adj]> (objects h ++ [def])) (registries h)).
    destruct (ready_alloc_set baseRegistry h def adj Hr) as [Hr2 Hd2].
    fold h2 in Hr2, Hd2.
    assert (Hadj : objects h2 !! length (objects h) = Some adj) by apply alloc_set_last.
    destruct (test_push_post baseRegistry h2 (length (objects h)) adj (samePath adj)
                Hr2 Hadj) as (H1 & H2 & H3 & H4).
    rewrite Hd2 in H2, H4.
    assert (Hoff : offered path def = adj).
    { unfold offered. now rewrite Hroot, Hty, Hrp. }
    split; [exact H1 |]. split; [exact H2 |]. split.
    + intros Hn. exists def. split; [reflexivity |]. intros Hm.
      rewrite Hty, Hoff. apply H3; [exact Hn |]. now apply samePath_self.
    + intros def' Hdef' Hs. injection Hdef' as <-.
      rewrite Hty, Hoff in Hs. now apply H4.
Qed.

Lemma extends_refl baseRegistry h : extends baseRegistry h h.
Proof. split; [apply grows_refl |]. exists []. now rewrite app_nil_r. Qed.

Lemma extends_trans baseRegistry h1 h2 h3 :
  extends baseRegistry h1 h2 -> extends baseRegistry h2 h3 -> extends baseRegistry h1 h3.
Proof.
  intros [G1 [x1 E1]] [G2 [x2 E2]]. split; [now apply (grows_trans _ h1 h2 h3) |].
  exists (x1 ++ x2). now rewrite E2, E1, app_assoc.
Qed.

Lemma growing_mountStep baseRegistry path a :
  growing baseRegistry (mountStep baseRegistry path a).
Proof.
  unfold mountStep. destruct (String.eqb path "/").
  - apply growing_bind; [apply growing_getDef |]. intros def. apply growing_addFragment.
  - apply growing_combineDefinition.
Qed.

(** A loop whose steps keep [P], relate the stores by [R] and, when they
complete, establish [Q] for their element, establishes [Q] for all its
elements when it completes, [Q] being stable along [R]. *)
Lemma forEach_post {A : Type} (P : Heap -> Prop) (R : Heap -> Heap -> Prop)
    (Q : A -> Heap -> Prop) (f : A -> JS unit) :
  (forall h, R h h) ->
  (forall h1 h2 h3, R h1 h2 -> R h2 h3 -> R h1 h3) ->
  (forall x h h', P h -> P h' -> R h h' -> Q x h -> Q x h') ->
  (forall x h, P h ->
     P (snd (f x h)) /\ R h (snd (f x h)) /\
     (fst (f x h) = Normal tt -> Q x (snd (f x h)))) ->
  forall l h, P h ->
    P (snd (forEach l f h)) /\ R h (snd (forEach l f h)) /\
    (fst (forEach l f h) = Normal tt ->
     forall x, x ∈ l -> Q x (snd (forEach l f h))).
Proof.
  intros Rrefl Rtrans Qstable Hstep. induction l as [| x l IH]; intros h Ph.
  - cbn. split; [exact Ph |]. split; [apply Rrefl |]. intros _ y Hy. inversion Hy.
  - cbn [forEach]. unfold bind.
    destruct (Hstep x h Ph) as (P1 & R1 & Q1).
    destruct (f x h) as [[[] |] h1]; cbn [fst snd] in *.
    + destruct (IH h1 P1) as (P2 & R2 & Q2).
      split; [exact P2 |]. split; [now apply (Rtrans h h1) |].
      intros Hn y Hy. apply elem_of_cons in Hy as [-> | Hy].
      * apply (Qstable x h1); auto.
      * now apply Q2.
    + split; [exact P1 |]. split; [exact R1 |]. discriminate.
Qed.

Lemma found_stable baseRegistry path a h h' :
  extends baseRegistry h h' -> found baseRegistry path a h -> found baseRegistry path a h'.
Proof.
  intros [(HO & _) [x Ex]] (def & Hdef & Hs). exists def. split; [now apply HO |].
  intros Hm. rewrite Ex. apply someDef_app_true. now apply Hs.
Qed.

(** The inner loop, completed, has found or pushed every definition. *)
Lemma inner_loop_found baseRegistry path l h :
  ready baseRegistry h ->
  ready baseRegistry (snd (forEach l (mountStep baseRegistry path) h)) /\
  extends baseRegistry h (snd (forEach l (mountStep baseRegistry path) h)) /\
  (fst (forEach l (mountStep baseRegistry path) h) = Normal tt ->
   forall a, a ∈ l ->
     found baseRegistry path a (snd (forEach l (mountStep baseRegistry path) h))).
Proof.
  apply (forEach_post (ready baseRegistry) (extends baseRegistry)
           (found baseRegistry path)).
  - apply extends_refl.
  - apply extends_trans.
  - intros a h1 h2 _ _ He Hf. now apply (found_stable baseRegistry path a h1).
  - intros a h1 Hr1.
    destruct (mountStep_spec baseRegistry path a h1 Hr1) as (H1 & H2 & H3 & _).
    split; [exact H1 |]. split; [split; [apply growing_mountStep | exact H2] |].
    intros Hn. destruct (H3 Hn) as (def & Hdef & Hs).
    exists def. split; [| exact Hs].
    now apply (growing_mountStep baseRegistry path a h1).
Qed.

(** The body of the outer loop is the inner loop over the definitions
array of the mounted registry, when there is one. *)
Lemma combineMount_eq baseRegistry m h :
  combineMount baseRegistry m h =
  match registry m with
  | Some r =>
      match registries h !! r with
      | Some o =>
          match definitions o with
          | Some l => forEach l (mountStep baseRegistry (path m)) h
          | None => (Normal tt, h)
          end
      | None => (Normal tt, h)
      end
  | None => (Normal tt, h)
  end.
Proof.
  unfold combineMount. destruct (registry m) as [r |]; [| reflexivity].
  unfold bind, definitionsOf.
  destruct (registries h !! r) as [o |]; [| reflexivity].
  destruct (definitions o) as [l |]; [| reflexivity].
  unfold mountStep. destruct (String.eqb (path m) "/"); reflexivity.
Qed.

Lemma covered_stable baseRegistry m h h' :
  (forall r, registry m = Some r -> r <> baseRegistry) ->
  extends baseRegistry h h' -> covered baseRegistry m h -> covered baseRegistry m h'.
Proof.
  intros Hne [(HO & HR & HB) [x Ex]] Hc r o l a Hreg Ho Hl Ha.
  rewrite (HR r (Hne r Hreg)) in Ho.
  destruct (Hc r o l a Hreg Ho Hl Ha) as (def & Hdef & Hs).
  exists def. split; [now apply HO |].
  rewrite Ex. now apply someDef_app_true.
Qed.

(** The outer loop, completed, has covered every mountable entry. *)
Lemma outer_loop_covers baseRegistry mountRegistry h0 :
  ready baseRegistry h0 ->
  ready baseRegistry (snd (forEach mountRegistry (combineMount baseRegistry) h0)) /\
  extends baseRegistry h0 (snd (forEach mountRegistry (combineMount baseRegistry) h0)) /\
  (fst (forEach mountRegistry (combineMount baseRegistry) h0) = Normal tt ->
   forall m, m ∈ mountRegistry -> mountable baseRegistry m h0 ->
     covered baseRegistry m (snd (forEach mountRegistry (combineMount baseRegistry) h0))).
Proof.
  intros Hr0.
  destruct (forEach_post
              (fun h => ready baseRegistry h /\ extends baseRegistry h0 h)
              (extends baseRegistry)
              (fun m h => mountable baseRegistry m h0 -> covered baseRegistry m h)
              (combineMount baseRegistry)) with (l := mountRegistry) (h := h0)
    as ((H1 & _) & H2 & H3).
  - apply extends_refl.
  - apply extends_trans.
  - intros m h h' _ _ He Hq Hm. apply (covered_stable baseRegistry m h h'); auto.
    intros r Hreg. now apply (Hm r Hreg).
  - intros m h [Hr He0]. rewrite combineMount_eq.
    assert (Hsame : (ready baseRegistry h /\ extends baseRegistry h0 h) /\
                    extends baseRegistry h h /\
                    (Normal tt = Normal tt -> mountable baseRegistry m h0 ->
                     forall r, registry m = Some r ->
                       (forall o l, registries h !! r = Some o ->
                                    definitions o = Some l -> False) ->
                       covered baseRegistry m h)).
    { split; [now split |]. split; [apply extends_refl |].
      intros _ _ r Hreg Hno r' o l a Hreg' Ho Hl _.
      assert (r' = r) by congruence. subst r'. now destruct (Hno o l). }
    destruct Hsame as (S1 & S2 & S3).
    destruct (registry m) as [r |] eqn:Hreg.
    2:{ cbn [fst snd]. split; [exact S1 |]. split; [exact S2 |].
        intros _ _ r o l a Hreg'. congruence. }
    destruct (registries h !! r) as [o |] eqn:Ho.
    2:{ cbn [fst snd]. split; [exact S1 |]. split; [exact S2 |].
        intros E Hm. apply (S3 E Hm r eq_refl). intros o l Ho' Hl'. congruence. }
    destruct (definitions o) as [l |] eqn:Hl.
    2:{ cbn [fst snd]. split; [exact S1 |]. split; [exact S2 |].
        intros E Hm. apply (S3 E Hm r eq_refl). intros o' l' Ho' Hl'. congruence. }
    clear S1 S2 S3.
    destruct (inner_loop_found baseRegistry (path m) l h Hr) as (I1 & I2 & I3).
    set (h' := snd (forEach l (mountStep baseRegistry (path m)) h)) in *.
    split; [split; [exact I1 | now apply (extends_trans _ h0 h h')] |].
    split; [exact I2 |].
    intros Hn Hm r' o' l' a Hreg' Ho' Hl' Ha.
    assert (r' = r) by congruence. subst r'.
    destruct (Hm r Hreg) as (Hne & Hclosed & Hplain).
    destruct I2 as [(HO2 & HR2 & _) _]. destruct He0 as [(HO0 & HR0 & _) _].
    rewrite (HR2 r Hne), Ho in Ho'. injection Ho' as <-.
    rewrite Hl in Hl'. injection Hl' as <-.
    destruct (I3 Hn a Ha) as (def & Hdef & Hs).
    exists def. split; [exact Hdef |]. apply Hs.
    rewrite (HR0 r Hne) in Ho.
    destruct (lookup_lt_is_Some_2 (objects h0) a) as [d0 Hd0].
    { exact (Hclosed o l a Ho Hl Ha). }
    assert (def = d0).
    { pose proof (HO2 a d0 (HO0 a d0 Hd0)) as E. fold h' in E. congruence. }
    subst def. exact (Hplain o l a d0 Ho Hl Ha Hd0).
  - split; [exact Hr0 | apply extends_refl].
  - split; [exact H1 |]. split; [exact H2 | exact H3].
Qed.

(** Over entries the base covers already, the outer loop pushes nothing. *)
Lemma outer_loop_pushes_nothing baseRegistry mountRegistry h1 :
  ready baseRegistry h1 ->
  (forall m, m ∈ mountRegistry ->
     covered baseRegistry m h1 /\
     (forall r, registry m = Some r -> r <> baseRegistry)) ->
  definitionsAt (snd (forEach mountRegistry (combineMount baseRegistry) h1)) baseRegistry
  = definitionsAt h1 baseRegistry.
Proof.
  intros Hr1 Hcov.
  set (J := fun h => ready baseRegistry h /\ grows baseRegistry h1 h /\
                     definitionsAt h baseRegistry = definitionsAt h1 baseRegistry).
  assert (K : keeps J (forEach mountRegistry (combineMount baseRegistry))).
  { apply keeps_forEach. intros m Hm h (Hr & Hg & Hd).
    destruct (Hcov m Hm) as (Hc & Hne).
    rewrite combineMount_eq.
    destruct (registry m) as [r |] eqn:Hreg; [| now split].
    destruct (registries h !! r) as [o |] eqn:Ho; [| now split].
    destruct (definitions o) as [l |] eqn:Hl; [| now split].
    assert (Ho1 : registries h1 !! r = Some o).
    { destruct Hg as (_ & HR & _). now rewrite <- (HR r (Hne r eq_refl)). }
    apply (keeps_forEach J l (mountStep baseRegistry (path m))); [| now split].
    intros a Ha h2 (Hr2 & Hg2 & Hd2).
    destruct (Hc r o l a Hreg Ho1 Hl Ha) as (def & Hdef & Hs).
    destruct (mountStep_spec baseRegistry (path m) a h2 Hr2) as (M1 & _ & _ & M4).
    split; [exact M1 |]. split.
    - eapply grows_trans; [exact Hg2 | apply growing_mountStep].
    - rewrite <- Hd2. apply (M4 def).
      + destruct Hg2 as (HO & _). now apply HO.
      + rewrite Hd2. exact Hs. }
  apply K. split; [exact Hr1 |]. split; [apply grows_refl | reflexivity].
Qed.

Lemma combineRegistries_forEach mountRegistry baseRegistry h :
  combineRegistries mountRegistry baseRegistry h =
  (match fst (forEach mountRegistry (combineMount baseRegistry) h) with
   | Normal _ => Normal baseRegistry
   | TypeError => TypeError
   end,
   snd (forEach mountRegistry (combineMount baseRegistry) h)).
Proof.
  unfold combineRegistries, bind.
  now destruct (forEach mountRegistry (combineMount baseRegistry) h) as [[[] |] h'].
Qed.

Lemma forEach_app {A : Type} (l1 l2 : list A) (f : A -> JS unit) h :
  fst (forEach l1 f h) = Normal tt ->
  forEach (l1 ++ l2) f h = forEach l2 f (snd (forEach l1 f h)).
Proof.
  revert h. induction l1 as [| x l1 IH]; intros h Hn; [reflexivity |].
  cbn [app forEach] in *. unfold bind in *.
  destruct (f x h) as [[[] |] h1]; cbn [fst snd] in *; [| discriminate].
  now apply IH.
Qed.

(** X23, what [combineRegistries] does for C3: once a ledger has been composed
into a base, with mounted registries that are not the base itself and whose
path definitions have plain methods, composing any of its entries again
pushes nothing: the base has the same definitions, in the same order.
This covers a second run over the ledger and entries recorded twice. *)
Lemma combineRegistries_again_adds_nothing
    (mountRegistry again : list (MountInfo (option Addr)))
    (baseRegistry : Addr) (h : Heap) :
  ready baseRegistry h ->
  (forall m, m ∈ mountRegistry -> mountable baseRegistry m h) ->
  (forall m, m ∈ again -> m ∈ mountRegistry) ->
  fst (combineRegistries mountRegistry baseRegistry h) = Normal baseRegistry ->
  let h1 := snd (combineRegistries mountRegistry baseRegistry h) in
  definitionsAt (snd (combineRegistries again baseRegistry h1)) baseRegistry =
  definitionsAt h1 baseRegistry /\
  definitionsAt (snd (combineRegistries (mountRegistry ++ again) baseRegistry h))
    baseRegistry = definitionsAt h1 baseRegistry.
Proof.
  intros Hr Hmount Hsub Hn h1.
  rewrite combineRegistries_forEach in Hn. cbn [fst] in Hn.
  assert (Hn' : fst (forEach mountRegistry (combineMount baseRegistry) h) = Normal tt).
  { destruct (fst (forEach mountRegistry (combineMount baseRegistry) h)) as [[] |];
      [reflexivity | discriminate]. }
  destruct (outer_loop_covers baseRegistry mountRegistry h Hr) as (Hr1 & _ & Hcov).
  assert (Hh1 : h1 = snd (forEach mountRegistry (combineMount baseRegistry) h)).
  { subst h1. now rewrite combineRegistries_forEach. }
  rewrite <- Hh1 in Hr1, Hcov.
  assert (Hagain : definitionsAt (snd (combineRegistries again baseRegistry h1))
                     baseRegistry = definitionsAt h1 baseRegistry).
  { rewrite combineRegistries_forEach. cbn [snd].
    apply outer_loop_pushes_nothing; [exact Hr1 |].
    intros m Hm. split.
    - apply (Hcov Hn' m (Hsub m Hm)). now apply Hmount, Hsub.
    - intros r Hreg. now apply (Hmount m (Hsub m Hm) r Hreg). }
  split; [exact Hagain |].
  rewrite <- Hagain.
  rewrite (combineRegistries_forEach (mountRegistry ++ again)).
  rewrite (combineRegistries_forEach again). cbn [snd].
  rewrite forEach_app by exact Hn'. now rewrite <- Hh1.
Qed.

(** The lemma applies to the example store: the router recorded twice at
[/api] leaves the one definition in the base. *)
Lemma combineRegistries_again_example :
  definitionsAt
    (snd (combineRegistries ([mountedAt "/api" 1] ++ [mountedAt "/api" 1]) 0 freshStore)) 0
  = [pathDefinition "get" "/api/users" [("summary", JStr "List users")]].
Proof.
  destruct (combineRegistries_again_adds_nothing
              [mountedAt "/api" 1] [mountedAt "/api" 1] 0 freshStore) as [_ H].
  - split.
    + intros o l a Ho Hl Ha. cbn in Ho. injection Ho as <-. cbn in Hl.
      injection Hl as <-. inversion Ha.
    + eexists _, _. split; reflexivity.
  - intros m Hm r Hreg. apply list_elem_of_singleton in Hm. subst m.
    cbn in Hreg. injection Hreg as <-. split; [discriminate |]. split.
    + intros o l a Ho Hl Ha. cbn in Ho. injection Ho as <-. cbn in Hl.
      injection Hl as <-. apply list_elem_of_singleton in Ha. subst a. cbn. lia.
    + intros o l a def Ho Hl Ha Hdef. cbn in Ho. injection Ho as <-. cbn in Hl.
      injection Hl as <-. apply list_elem_of_singleton in Ha. subst a.
      cbn in Hdef. injection Hdef as <-. reflexivity.
  - auto.
  - reflexivity.
  - rewrite H. reflexivity.
Defined.

(** X24, what [combineRegistries] does for C1: away from the root, the copy of
a path definition, rewritten under the mount path, goes last into the base
when the test on method and path finds none there, and nowhere when it
finds one (or throws). *)
Lemma combineDefinition_first_writer_wins
    (baseRegistry : Addr) (path : string) (a : Addr) (h : Heap)
    (def : DefinitionObj) (routePath : string) :
  ready baseRegistry h ->
  objects h !! a = Some def ->
  String.eqb (type def) "path" = true ->
  routePathOf def = Normal routePath ->
  let adjustedDef := adjustedFor path def routePath in
  let h' := snd (combineDefinition baseRegistry path a h) in
  pathOf adjustedDef = Some (JStr (fullPath path routePath)) /\
  match someDef (samePath adjustedDef) (definitionsAt h baseRegistry) with
  | Normal false =>
      definitionsAt h' baseRegistry = definitionsAt h baseRegistry ++ [adjustedDef]
  | _ => definitionsAt h' baseRegistry = definitionsAt h baseRegistry
  end.
Proof.
  intros Hr Ha Hty Hrp adjustedDef h'. split.
  { unfold pathOf, adjustedDef, adjustedFor. cbn [schema spread].
    apply assoc_set_member_eq. }
  subst h'. rewrite (combineDefinition_path baseRegistry path a h def Ha Hty), Hrp.
  fold adjustedDef.
  set (h2 := mkHeap (<[length (objects h) := adjustedDef]> (objects h ++ [def]))
               (registries h)).
  destruct (ready_alloc_set baseRegistry h def adjustedDef Hr) as [Hr2 Hd2].
  fold h2 in Hr2, Hd2.
  assert (Hadj : objects h2 !! length (objects h) = Some adjustedDef)
    by apply alloc_set_last.
  destruct (test_push_spec baseRegistry h2 (length (objects h)) adjustedDef
              (samePath adjustedDef) Hr2 Hadj) as [_ Hcase].
  rewrite Hd2 in Hcase.
  destruct (someDef (samePath adjustedDef) (definitionsAt h baseRegistry)) as [[|] |];
    now destruct Hcase.
Qed.

End CompositionFacts.

(** ** More on the mount paths *)

Module PathMore.
Import JsString MountLedger PathFacts.

Lemma length_slice s :
  String.length (slice_0_neg1 s) = Nat.pred (String.length s).
Proof.
  induction s as [| c s IH]; [reflexivity |].
  destruct s as [| d s]; [reflexivity |].
  change (slice_0_neg1 (String c (String d s)))
    with (String c (slice_0_neg1 (String d s))).
  cbn [String.length] in *. rewrite IH. reflexivity.
Qed.

Lemma length_normalizedPath s :
  (String.length s <= String.length (normalizedPath s) + 1)%nat /\
  (1 <= String.length (normalizedPath s))%nat.
Proof.
  unfold normalizedPath.
  set (p := if negb (startsWith s "/") then "/" +:+ s else s).
  assert (Hp : (String.length s <= String.length p)%nat /\ (1 <= String.length p)%nat).
  { subst p. destruct (startsWith s "/") eqn:E; cbn [negb].
    - split; [lia |]. destruct s; [discriminate | cbn [String.length]; lia].
    - change ("/" +:+ s) with (String "/"%char s). cbn [String.length]. lia. }
  destruct (endsWith p "/" && (1 <? String.length p)%nat) eqn:C; [| lia].
  apply andb_true_iff in C as [_ C]. apply Nat.ltb_lt in C.
  rewrite length_slice. lia.
Qed.

Lemma two_slashes p :
  startsWith p "/" = true -> endsWith p "/" = true -> String.length p = 2%nat ->
  p = "//".
Proof.
  destruct p as [| c [| d [| e p]]]; cbn [String.length]; intros Hs He Hl;
    try discriminate.
  rewrite startsWith_slash_cons in Hs.
  rewrite endsWith_slash_cons, endsWith_slash_single in He.
  apply Ascii.eqb_eq in Hs, He. now subst.
Qed.

(** X1: the inputs stored as the root path are the empty string, one slash
and two slashes, and no other. *)
Theorem normalizedPath_root (mountPath : string) :
  normalizedPath mountPath = "/" <->
  mountPath = EmptyString \/ mountPath = "/" \/ mountPath = "//".
Proof.
  split.
  - unfold normalizedPath.
    set (p := if negb (startsWith mountPath "/") then "/" +:+ mountPath else mountPath).
    assert (Hp : startsWith p "/" = true) by apply prefixed_startsWith.
    assert (Hcases : p = "/" \/ p = "//" ->
                     mountPath = EmptyString \/ mountPath = "/" \/ mountPath = "//").
    { subst p. destruct (startsWith mountPath "/") eqn:E; cbn [negb].
      - intros [-> | ->]; auto.
      - change ("/" +:+ mountPath) with (String "/"%char mountPath).
        intros [H | H]; injection H as ->; auto. }
    destruct (endsWith p "/" && (1 <? String.length p)%nat) eqn:C; intros H.
    + apply Hcases. right. apply andb_true_iff in C as [He Hl].
      apply two_slashes; auto.
      apply (f_equal String.length) in H. rewrite length_slice in H. cbn in H.
      apply Nat.ltb_lt in Hl. lia.
    + apply Hcases. now left.
  - intros [-> | [-> | ->]]; reflexivity.
Qed.

Lemma normalizedPath_fixed p :
  startsWith p "/" = true -> (endsWith p "/" = true -> p = "/") ->
  normalizedPath p = p.
Proof.
  intros Hs He. unfold normalizedPath. rewrite Hs. cbn [negb].
  destruct (endsWith p "/") eqn:E; [| reflexivity].
  rewrite (He eq_refl). reflexivity.
Qed.

(** X2: normalising a second time changes nothing, for every mount path
that does not end with two slashes. *)
Theorem normalizedPath_idempotent (mountPath : string) :
  endsWith mountPath "//" = false ->
  normalizedPath (normalizedPath mountPath) = normalizedPath mountPath.
Proof.
  intros H. apply normalizedPath_fixed.
  - apply normalizedPath_startsWith.
  - now apply normalizedPath_endsWith.
Qed.

Lemma normalizedPath_idempotent_witness :
  normalizedPath (normalizedPath "api/") = "/api".
Proof.
  rewrite (normalizedPath_idempotent "api/"); reflexivity.
Defined.

Lemma prefix_append a b : String.prefix a (a +:+ b) = true.
Proof.
  induction a as [| c a IH].
  - change (EmptyString +:+ b) with b. now destruct b.
  - change (String c a +:+ b) with (String c (a +:+ b)). cbn [String.prefix].
    destruct (ascii_dec c c); [exact IH | contradiction].
Qed.

(** X3: a path rewritten under a stored mount path is absolute and lies
under that mount path. *)
Theorem fullPath_under_mount (mountPath routePath : string) :
  startsWith (fullPath (normalizedPath mountPath) routePath) "/" = true /\
  String.prefix (normalizedPath mountPath)
    (fullPath (normalizedPath mountPath) routePath) = true.
Proof.
  set (M := normalizedPath mountPath).
  assert (HM : startsWith M "/" = true) by apply normalizedPath_startsWith.
  unfold fullPath. destruct (String.eqb_spec M "/") as [E | E].
  - rewrite E. split; [| apply (prefix_append "/")].
    change ("/" +:+ routePath_stripped routePath)
      with (String "/"%char (routePath_stripped routePath)).
    now rewrite startsWith_slash_cons.
  - split; [| apply prefix_append].
    destruct M as [| c M']; [discriminate |].
    change (String c M' +:+ "/" +:+ routePath_stripped routePath)
      with (String c (M' +:+ "/" +:+ routePath_stripped routePath)).
    now rewrite startsWith_slash_cons in *.
Qed.

(** X4: a route path declared without a leading slash is rewritten to the
path it would have with one. *)
Theorem fullPath_leading_slash (path routePath : string) :
  startsWith routePath "/" = false ->
  fullPath path ("/" +:+ routePath) = fullPath path routePath.
Proof.
  intros H. unfold fullPath, routePath_stripped. rewrite H.
  change ("/" +:+ routePath) with (String "/"%char routePath).
  now rewrite startsWith_slash_cons.
Qed.

Lemma fullPath_leading_slash_witness :
  fullPath "/api" "/users" = fullPath "/api" "users".
Proof. apply (fullPath_leading_slash "/api" "users"). reflexivity. Defined.

Lemma String_cons_neq c s : String c s <> s.
Proof.
  intros H. apply (f_equal String.length) in H. cbn in H. lia.
Qed.

(** X5: at the root a route path stays as it is exactly when it begins
with a slash; otherwise it is given one. *)
Theorem fullPath_root (routePath : string) :
  (fullPath "/" routePath = routePath <-> startsWith routePath "/" = true) /\
  (startsWith routePath "/" = false -> fullPath "/" routePath = "/" +:+ routePath).
Proof.
  unfold fullPath, routePath_stripped. cbn [String.eqb Ascii.eqb Bool.eqb].
  destruct routePath as [| c r].
  - split; [| reflexivity]. split; intros H; discriminate.
  - rewrite startsWith_slash_cons.
    destruct (Ascii.eqb_spec c "/"%char) as [-> | Hc].
    + split; [| discriminate]. split; reflexivity.
    + split; [| reflexivity]. split; [| discriminate].
      intros H. now apply String_cons_neq in H.
Qed.

End PathMore.

(** ** More on the dispatcher *)

Module DispatcherMore.
Import MountLedger Dispatcher MoreSpec DispatcherFacts.

Lemma HttpMethod_eqb_eq a b : HttpMethod_eqb a b = true <-> a = b.
Proof. destruct a, b; cbn; split; intros H; try reflexivity; discriminate. Qed.

(** X6: [enhanceHttpMethods] wraps a verb method once for each time the
verb is in the list it is given, and leaves the methods of the other verbs
as they are. *)
Theorem enhanceHttpMethods_occurrences
    (target : Target) (l : list HttpMethod) (createEndpoint : EndpointFactory)
    (method : HttpMethod) :
  enhanceHttpMethods target l createEndpoint method =
  Nat.iter (occurrences method l) (enhancedMethod createEndpoint method) (target method).
Proof.
  unfold enhanceHttpMethods, occurrences. revert target.
  induction l as [| x l IH]; intros target; [reflexivity |].
  cbn [fold_left]. rewrite IH. rewrite filter_cons.
  destruct (decide (HttpMethod_eqb method x = true)) as [E | E].
  - rewrite E. apply HttpMethod_eqb_eq in E. subst x.
    cbn [length]. now rewrite Nat.iter_succ_r.
  - destruct (HttpMethod_eqb method x); [contradiction | reflexivity].
Qed.

Section Logged.
Variable middlewareOf : HttpMethod -> Value -> Value -> Value.
Variable resultOf : HttpMethod -> list Value -> Value.

(** X7: a call whose first argument is neither a plain keyed object nor a
string (a pattern, an array of paths, [null], a function) is forwarded as it
is, whatever follows, and the factory is not called. *)
Theorem wrapped_pattern_first
    (method : HttpMethod) (first : Value) (rest : list Value) (w : World) :
  isOptionsObject first = false ->
  TypeTag_eqb (typeof first) T_string = false ->
  wrapped middlewareOf resultOf method (first :: rest) w =
  (Returned (resultOf method (first :: rest)),
   after w [OriginalMethod method (first :: rest)]).
Proof.
  intros Ho Hs. apply wrapped_passthrough.
  - unfold optionsFirst, arg. cbn [nth]. rewrite Ho. apply andb_false_r.
  - unfold pathThenOptions, arg. cbn [nth]. rewrite Hs.
    now rewrite andb_false_r.
Qed.

(** X8: a string path followed by anything but a plain keyed object (a
handler, an array of handlers, a pattern, [null]) is forwarded as it is,
however many arguments follow, and the factory is not called. *)
Theorem wrapped_path_then_handler
    (method : HttpMethod) (p : string) (second : Value) (rest : list Value)
    (w : World) :
  isOptionsObject second = false ->
  wrapped middlewareOf resultOf method (VStr p :: second :: rest) w =
  (Returned (resultOf method (VStr p :: second :: rest)),
   after w [OriginalMethod method (VStr p :: second :: rest)]).
Proof.
  intros Ho. apply wrapped_passthrough.
  - reflexivity.
  - unfold pathThenOptions, arg. cbn [nth]. rewrite Ho. apply andb_false_r.
Qed.

(** X10: an options-first call whose [path] member is any truthy value, a
pattern as well as a string, makes one call of the factory with that value
and the options object, then one call of the underlying method with the
value, the middleware, the handler and the rest. *)
Theorem wrapped_options_any_path
    (method : HttpMethod) (opts handler : Value) (rest : list Value) (w : World) :
  isOptionsObject opts = true ->
  truthy (getMember opts "path") = true ->
  wrapped middlewareOf resultOf method (opts :: handler :: rest) w =
  (Returned (resultOf method
               (getMember opts "path" ::
                middlewareOf method (getMember opts "path") opts :: handler :: rest)),
   after w [CreateEndpoint method (getMember opts "path") opts;
            OriginalMethod method
              (getMember opts "path" ::
               middlewareOf method (getMember opts "path") opts :: handler :: rest)]).
Proof.
  intros Ho Ht. exact (wrapped_optionsFirst middlewareOf resultOf method opts handler rest w Ho Ht).
Qed.

End Logged.

Lemma wrapped_pattern_first_witness :
  wrapped (fun _ _ _ => VFunction 0 []) (fun _ _ => VUndefined) GET
    [VRegExp "^/users/"; VObject [("body", VStr "S")]; VFunction 1 []] (mkWorld [] [])
  = (Returned VUndefined,
     mkWorld [] [OriginalMethod GET
                   [VRegExp "^/users/"; VObject [("body", VStr "S")]; VFunction 1 []]]).
Proof.
  apply (wrapped_pattern_first (fun _ _ _ => VFunction 0 []) (fun _ _ => VUndefined)
           GET (VRegExp "^/users/")
           [VObject [("body", VStr "S")]; VFunction 1 []] (mkWorld [] []));
    reflexivity.
Defined.

Lemma wrapped_path_then_handler_witness :
  wrapped (fun _ _ _ => VFunction 0 []) (fun _ _ => VUndefined) GET
    [VStr "/x"; VArray [VFunction 1 []; VFunction 2 []]; VFunction 3 []] (mkWorld [] [])
  = (Returned VUndefined,
     mkWorld [] [OriginalMethod GET
                   [VStr "/x"; VArray [VFunction 1 []; VFunction 2 []]; VFunction 3 []]]).
Proof.
  apply (wrapped_path_then_handler (fun _ _ _ => VFunction 0 []) (fun _ _ => VUndefined)
           GET "/x" (VArray [VFunction 1 []; VFunction 2 []]) [VFunction 3 []]
           (mkWorld [] [])).
  reflexivity.
Defined.

Lemma wrapped_options_any_path_witness :
  calls (snd (wrapped (fun _ _ _ => VFunction 0 []) (fun _ _ => VUndefined) GET
                [VObject [("path", VRegExp "^/users/")]; VFunction 1 []] (mkWorld [] [])))
  = [CreateEndpoint GET (VRegExp "^/users/") (VObject [("path", VRegExp "^/users/")]);
     OriginalMethod GET [VRegExp "^/users/"; VFunction 0 []; VFunction 1 []]].
Proof.
  rewrite (wrapped_options_any_path (fun _ _ _ => VFunction 0 []) (fun _ _ => VUndefined)
             GET (VObject [("path", VRegExp "^/users/")]) (VFunction 1 []) []
             (mkWorld [] [])); reflexivity.
Defined.

(** X9: an options-first call whose [path] member is there but falsy (the
empty string, [0], [null], [false]) throws the error that names the verb, as
a missing one does, for every factory and every underlying target, and
leaves the world as it was. *)
Theorem enhancedMethod_falsy_path
    (target : Target) (createEndpoint : EndpointFactory) (method : HttpMethod)
    (opts handler : Value) (rest : list Value) (w : World) :
  isOptionsObject opts = true ->
  truthy (getMember opts "path") = false ->
  enhanceHttpMethods target methods createEndpoint method
    (opts :: handler :: rest) w
  = (Threw ("Path is required when using options as first argument for "
              +:+ methodName method), w).
Proof.
  intros Hobj Hpath. rewrite enhanceHttpMethods_methods.
  unfold enhancedMethod, optionsFirst, arg. cbn [length nth].
  rewrite Hobj. cbn [Nat.ltb Nat.leb andb]. rewrite Hpath. reflexivity.
Qed.

Lemma enhancedMethod_falsy_path_witness :
  enhanceHttpMethods (loggedTarget (fun _ _ => VUndefined)) methods
    (loggedFactory (fun _ _ _ => VFunction 0 [])) PUT
    [VObject [("path", VStr EmptyString)]; VFunction 1 []] (mkWorld [] [])
  = (Threw "Path is required when using options as first argument for put",
     mkWorld [] []).
Proof.
  apply (enhancedMethod_falsy_path
           (loggedTarget (fun _ _ => VUndefined))
           (loggedFactory (fun _ _ _ => VFunction 0 [])) PUT
           (VObject [("path", VStr EmptyString)]) (VFunction 1 []) [] (mkWorld [] []));
    reflexivity.
Defined.

Lemma enhancedMethod_skip createEndpoint method originalMethod args :
  optionsFirst args = false -> pathThenOptions args = false ->
  enhancedMethod createEndpoint method originalMethod args = originalMethod args.
Proof. intros H1 H2. unfold enhancedMethod. now rewrite H1, H2. Qed.

Lemma optionsFirst_cons v rest :
  isOptionsObject v = false -> optionsFirst (v :: rest) = false.
Proof. intros H. unfold optionsFirst, arg. cbn [nth]. rewrite H. apply andb_false_r. Qed.

Lemma pathThenOptions_cons a v rest :
  isOptionsObject v = false -> pathThenOptions (a :: v :: rest) = false.
Proof.
  intros H. unfold pathThenOptions, arg. cbn [nth]. rewrite H. apply andb_false_r.
Qed.

(** X11: enhancing a target a second time (a second set-up call on the
same application or router) does not double the validation: when the
factories return functions and the [path] member of an options-first call is
not itself a plain object, every call does what it does on the target
enhanced by the outer factory alone; the inner factory is never called. *)
Theorem wrappedTwice_as_once
    (inner outer : HttpMethod -> Value -> Value -> Value)
    (resultOf : HttpMethod -> list Value -> Value)
    (method : HttpMethod) (args : list Value) (w : World) :
  (forall m p o, isOptionsObject (outer m p o) = false) ->
  isOptionsObject (getMember (arg 0 args) "path") = false ->
  wrappedTwice inner outer resultOf method args w =
  wrapped outer resultOf method args w.
Proof.
  intros Hmw Hpath. unfold wrappedTwice, wrapped.
  rewrite !enhanceHttpMethods_methods.
  set (orig := loggedTarget resultOf method).
  unfold enhancedMethod at 1 3.
  destruct (optionsFirst args) eqn:E1.
  - destruct (negb (truthy (getMember (arg 0 args) "path"))); [reflexivity |].
    unfold bind, loggedFactory. apply (f_equal (fun f => f _)).
    apply enhancedMethod_skip.
    + now apply optionsFirst_cons.
    + apply pathThenOptions_cons, Hmw.
  - destruct (pathThenOptions args) eqn:E2.
    + unfold bind, loggedFactory. apply (f_equal (fun f => f _)).
      apply enhancedMethod_skip.
      * unfold pathThenOptions in E2. apply andb_true_iff in E2 as [E2 _].
        apply andb_true_iff in E2 as [_ E2].
        apply optionsFirst_cons.
        destruct (arg 0 args); try discriminate. reflexivity.
      * apply pathThenOptions_cons, Hmw.
    + now rewrite enhancedMethod_skip.
Qed.

Lemma wrappedTwice_as_once_witness :
  calls (snd (wrappedTwice (fun _ _ _ => VFunction 8 []) (fun _ _ _ => VFunction 9 [])
                (fun _ _ => VUndefined) POST
                [VObject [("path", VStr "/x")]; VFunction 1 []] (mkWorld [] [])))
  = [CreateEndpoint POST (VStr "/x") (VObject [("path", VStr "/x")]);
     OriginalMethod POST [VStr "/x"; VFunction 9 []; VFunction 1 []]].
Proof.
  rewrite (wrappedTwice_as_once (fun _ _ _ => VFunction 8 []) (fun _ _ _ => VFunction 9 [])
             (fun _ _ => VUndefined) POST
             [VObject [("path", VStr "/x")]; VFunction 1 []] (mkWorld [] []));
    reflexivity.
Defined.

(** *** The wrapped [use], call after call *)

Lemma use_records_nothing_witness :
  app_use (loggedUse (fun _ => VUndefined))
    [VStr "/api"; VFunction 1 [("_isRouterPlus", VBool true)]] (mkWorld [] [])
  = (Returned VUndefined,
     mkWorld [] [OriginalUse [VStr "/api"; VFunction 1 [("_isRouterPlus", VBool true)]] []]).
Proof.
  apply (use_records_nothing (fun _ => VUndefined)
           [VStr "/api"; VFunction 1 [("_isRouterPlus", VBool true)]] (mkWorld [] [])).
  reflexivity.
Defined.

Lemma use_step resultOf (c : bool * list Value) w :
  useCall resultOf c w =
  (Returned (resultOf (snd c)),
   mkWorld (mountRegistry w ++ recorded (snd c))
     (calls w ++ [OriginalUse (snd c) (mountRegistry w ++ recorded (snd c))])).
Proof.
  destruct c as [onRouter args]. unfold useCall. cbn [fst snd].
  assert (E : (if onRouter then routerInstance_use else app_use) (loggedUse resultOf) args w
              = app_use (loggedUse resultOf) args w) by now destruct onRouter.
  rewrite E. clear E. unfold app_use, recorded, examined, mountPathTaken.
  destruct args as [| a [| b rest]].
  - cbn. now rewrite app_nil_r.
  - cbn [length Nat.leb Nat.eqb andb arg nth].
    destruct (isRouterPlus a); cbn; [reflexivity | now rewrite app_nil_r].
  - cbn [length Nat.leb Nat.eqb andb arg nth].
    destruct (isRouterPlus b); cbn; [reflexivity | now rewrite app_nil_r].
Qed.

(** X13: over a whole set-up phase the ledger only grows at its end: after
any sequence of calls of the wrapped [use], on the application or on
routers, it is the ledger found, followed by the entries of the calls that
record one, in the order of the calls; an entry carries the mount path of
its own call only, also when the router it was called on is mounted under
another path; and every call has been forwarded, in order, with its own
arguments. *)
Theorem runUses_ledger
    (resultOf : list Value -> Value) (cs : list (bool * list Value)) (w : World) :
  mountRegistry (runUses resultOf cs w) =
    mountRegistry w ++ concat (map (fun c => recorded (snd c)) cs) /\
  omap forwardedArgs (calls (runUses resultOf cs w)) =
    omap forwardedArgs (calls w) ++ map snd cs.
Proof.
  revert w. induction cs as [| c cs IH]; intros w.
  - cbn. now rewrite !app_nil_r.
  - cbn [runUses map concat]. rewrite use_step. cbn [snd].
    destruct (IH (mkWorld (mountRegistry w ++ recorded (c.2))
                    (calls w ++ [OriginalUse (c.2) (mountRegistry w ++ recorded (c.2))])))
      as [H1 H2].
    rewrite H1, H2. cbn [mountRegistry calls]. split.
    + now rewrite app_assoc.
    + rewrite omap_app. cbn. now rewrite <- app_assoc.
Qed.

End DispatcherMore.

(** ** More on the composition *)

Module CompositionMore.
Import JsString MountLedger Json Composition CompositionSpec MoreSpec CompositionFacts.
Local Open Scope js_scope.

Lemma forEach_unchanged {A : Type} (l : list A) (f : A -> JS unit) h :
  (forall x, x ∈ l -> f x h = (Normal tt, h)) -> forEach l f h = (Normal tt, h).
Proof.
  induction l as [| x l IH]; intros Hf; [reflexivity |].
  cbn [forEach]. unfold bind. rewrite (Hf x) by left.
  apply IH. intros y Hy. apply Hf. now right.
Qed.

Lemma combineMount_skip baseRegistry m h :
  skippedByCombine h m -> combineMount baseRegistry m h = (Normal tt, h).
Proof.
  unfold skippedByCombine. intros H. rewrite combineMount_eq.
  destruct (registry m) as [r |]; [| reflexivity].
  destruct (registries h !! r) as [o |]; [| reflexivity].
  destruct H as [-> | ->]; reflexivity.
Qed.

(** X14: a ledger entry without a registry, with a registry object that
has no definitions array, or with an empty one, is passed over: when every
entry is such (the empty ledger too), [combineRegistries] called on a base
that is an object completes, returns that base and leaves the whole store
as it was, whether or not the base has a definitions array. Called on
[null] or [undefined] it throws at once, whatever the ledger holds, and
the store is as it was. *)
Theorem combineRegistries_skips
    (mountRegistry : list (MountInfo (option Addr))) (h : Heap) :
  (forall m, m ∈ mountRegistry -> skippedByCombine h m) ->
  (forall baseRegistry : Addr,
     combineRegistriesFrom mountRegistry (Some baseRegistry) h =
       (Normal (Some baseRegistry), h)) /\
  (forall ledger, combineRegistriesFrom ledger None h = (TypeError, h)).
Proof.
  intros H. split; [| reflexivity].
  intros baseRegistry. unfold combineRegistriesFrom, combineRegistries, bind.
  rewrite forEach_unchanged; [reflexivity |].
  intros m Hm. apply combineMount_skip, H, Hm.
Qed.

Lemma combineRegistries_skips_witness :
  combineRegistriesFrom [mkMountInfo "/api" None; mountedAt "/v1" 1; mountedAt "/v2" 7]
    (Some 0%nat) facadeStore = (Normal (Some 0%nat), facadeStore) /\
  combineRegistriesFrom [mkMountInfo "/api" None; mountedAt "/v1" 1; mountedAt "/v2" 7]
    (Some 9%nat) facadeStore = (Normal (Some 9%nat), facadeStore) /\
  combineRegistriesFrom [] None facadeStore = (TypeError, facadeStore).
Proof.
  destruct (combineRegistries_skips
              [mkMountInfo "/api" None; mountedAt "/v1" 1; mountedAt "/v2" 7] facadeStore)
    as [Hobj Hnull].
  - intros m Hm.
    apply elem_of_cons in Hm as [-> | Hm]; [exact I |].
    apply elem_of_cons in Hm as [-> | Hm]; [now left |].
    apply list_elem_of_singleton in Hm. subst m. exact I.
  - split; [apply Hobj |]. split; [apply Hobj | apply Hnull].
Defined.

Lemma generateMount_skip baseRegistry m h :
  skippedByGenerate h m -> generateMount baseRegistry m h = (Normal tt, h).
Proof.
  unfold skippedByGenerate, generateMount. intros H.
  destruct (registry m) as [r |]; [| reflexivity].
  unfold bind at 1. unfold rawRegistryOf in *. cbn [fst] in H.
  destruct (match registries h !! r with
            | Some o => match getRawRegistry o with
                        | Some raw => raw
                        | None => Some r
                        end
            | None => Some r
            end) as [raw |]; [| reflexivity].
  unfold bind, definitionsOf.
  destruct (registries h !! raw) as [o |]; [| reflexivity].
  destruct H as [-> | ->]; reflexivity.
Qed.

(** X15: the [generateOpenAPIDocument] override passes over a ledger entry
without a registry, one whose [getRawRegistry] returns nothing, and one
whose raw registry has no definitions array or an empty one: when every
entry is such, the composition completes and leaves the store as it was. *)
Theorem generateOpenAPIDocument_skips
    (mountRegistry : list (MountInfo (option Addr))) (baseRegistry : Addr) (h : Heap) :
  (forall m, m ∈ mountRegistry -> skippedByGenerate h m) ->
  generateOpenAPIDocument mountRegistry baseRegistry h = (Normal baseRegistry, h).
Proof.
  intros H. unfold generateOpenAPIDocument, bind.
  rewrite forEach_unchanged; [reflexivity |].
  intros m Hm. apply generateMount_skip, H, Hm.
Qed.

Lemma generateOpenAPIDocument_skips_witness :
  generateOpenAPIDocument [mkMountInfo "/api" None; mountedAt "/v2" 7] 0 facadeStore
  = (Normal 0%nat, facadeStore).
Proof.
  apply generateOpenAPIDocument_skips. intros m Hm.
  apply elem_of_cons in Hm as [-> | Hm]; [exact I |].
  apply list_elem_of_singleton in Hm. subst m. exact I.
Defined.

(** A loop throws when one of its elements makes its step throw in every
store the loop can be in. *)
Lemma forEach_throws {A : Type} (I : Heap -> Prop) (f : A -> JS unit) (l : list A) x :
  (forall y h, I h -> I (snd (f y h))) ->
  (forall h, I h -> fst (f x h) = TypeError) ->
  x ∈ l -> forall h, I h -> fst (forEach l f h) = TypeError.
Proof.
  intros Hkeep Hx. induction l as [| y l IH]; intros Hin h Hh; [inversion Hin |].
  cbn [forEach]. unfold bind.
  apply elem_of_cons in Hin as [<- | Hin].
  - specialize (Hx h Hh). destruct (f x h) as [[u |] h1]; cbn in *; [discriminate | reflexivity].
  - specialize (Hkeep y h Hh). destruct (f y h) as [[u |] h1]; cbn in *; [| reflexivity].
    now apply IH.
Qed.

Lemma growing_combineMount baseRegistry m :
  growing baseRegistry (combineMount baseRegistry m).
Proof.
  unfold combineMount.
  destruct (registry m) as [r |]; [| apply growing_ret].
  apply growing_bind; [apply growing_definitionsOf |].
  intros [l |]; [| apply growing_ret].
  destruct (String.eqb (path m) "/").
  - apply growing_forEach. intros a.
    apply growing_bind; [apply growing_getDef |]. intros def.
    apply growing_addFragment.
  - apply growing_forEach. intros a. apply growing_combineDefinition.
Qed.

Lemma growing_generateMount baseRegistry m :
  growing baseRegistry (generateMount baseRegistry m).
Proof.
  unfold generateMount.
  destruct (registry m) as [r |]; [| apply growing_ret].
  apply growing_bind; [apply growing_rawRegistryOf |].
  intros [raw |]; [| apply growing_ret].
  apply growing_bind; [apply growing_definitionsOf |].
  intros [l |]; [| apply growing_ret].
  apply growing_forEach. intros a. apply growing_generateDefinition.
Qed.

Lemma combineDefinition_throws baseRegistry path a h def :
  objects h !! a = Some def -> unrewritable def ->
  fst (combineDefinition baseRegistry path a h) = TypeError.
Proof.
  intros Ha [Hty Hrp].
  now rewrite (combineDefinition_path baseRegistry path a h def Ha Hty), Hrp.
Qed.

Lemma generateDefinition_throws baseRegistry path a h def :
  objects h !! a = Some def -> unrewritable def ->
  fst (generateDefinition baseRegistry path a h) = TypeError.
Proof.
  intros Ha [Hty Hrp]. unfold generateDefinition.
  unfold bind at 1. unfold getDef at 1. rewrite Ha, Hty.
  unfold bind at 1. unfold allocDef.
  unfold bind at 1. unfold lift at 1. now rewrite Hrp.
Qed.

(** X16: one path definition without a string [path], in a registry
mounted away from the root, makes [combineRegistries] throw a [TypeError]:
the composition does not complete, wherever the entry is in the ledger and
whatever the other entries hold. *)
Theorem combineRegistries_throws
    (mountRegistry : list (MountInfo (option Addr))) (baseRegistry : Addr) (h : Heap)
    (m : MountInfo (option Addr)) (r : Addr) (o : RegistryObj) (l : list Addr)
    (a : Addr) (def : DefinitionObj) :
  m ∈ mountRegistry -> registry m = Some r -> r <> baseRegistry ->
  path m <> "/" ->
  registries h !! r = Some o -> definitions o = Some l -> a ∈ l ->
  objects h !! a = Some def -> unrewritable def ->
  fst (combineRegistries mountRegistry baseRegistry h) = TypeError.
Proof.
  intros Hm Hreg Hne Hroot Ho Hl Ha Hdef Hbad.
  rewrite combineRegistries_forEach. cbn [fst].
  rewrite (forEach_throws (grows baseRegistry h) (combineMount baseRegistry)
             mountRegistry m); auto.
  - intros y h1 H1. eapply grows_trans; [exact H1 | apply growing_combineMount].
  - intros h1 (HO & HR & _). rewrite combineMount_eq, Hreg, (HR r Hne), Ho, Hl.
    apply (forEach_throws (grows baseRegistry h1) (mountStep baseRegistry (path m)) l a);
      auto.
    + intros y h2 H2. eapply grows_trans; [exact H2 | apply growing_mountStep].
    + intros h2 (HO2 & _). unfold mountStep.
      destruct (String.eqb_spec (path m) "/"); [contradiction |].
      apply (combineDefinition_throws _ _ _ _ def); auto.
    + apply grows_refl.
  - apply grows_refl.
Qed.

Lemma combineRegistries_throws_witness :
  fst (combineRegistries [mkMountInfo "/a" None; mountedAt "/api" 1] 0 brokenStore)
  = TypeError.
Proof.
  apply (combineRegistries_throws
           [mkMountInfo "/a" None; mountedAt "/api" 1] 0 brokenStore
           (mountedAt "/api" 1) 1 (mkRegistryObj None (Some [0%nat])) [0%nat] 0
           (mkDefinitionObj "path" None (JObj [("method", JStr "get")]))).
  - right. left.
  - reflexivity.
  - discriminate.
  - discriminate.
  - reflexivity.
  - reflexivity.
  - left.
  - reflexivity.
  - split; reflexivity.
Defined.

Lemma generateMount_eq baseRegistry m h :
  generateMount baseRegistry m h =
  match registry m with
  | Some r =>
      match fst (rawRegistryOf r h) with
      | Normal (Some raw) =>
          match registries h !! raw with
          | Some o =>
              match definitions o with
              | Some l => forEach l (generateDefinition baseRegistry (path m)) h
              | None => (Normal tt, h)
              end
          | None => (Normal tt, h)
          end
      | _ => (Normal tt, h)
      end
  | None => (Normal tt, h)
  end.
Proof.
  unfold generateMount. destruct (registry m) as [r |]; [| reflexivity].
  unfold bind at 1. unfold rawRegistryOf. cbn [fst].
  destruct (match registries h !! r with
            | Some o => match getRawRegistry o with
                        | Some raw => raw
                        | None => Some r
                        end
            | None => Some r
            end) as [raw |]; [| reflexivity].
  unfold bind, definitionsOf.
  destruct (registries h !! raw) as [o |]; [| reflexivity].
  now destruct (definitions o).
Qed.

(** X17: the [generateOpenAPIDocument] override throws the same way, at
the root as well: one path definition without a string [path] in the raw
registry of a ledger entry makes the composition throw a [TypeError], so
that the document is not generated. *)
Theorem generateOpenAPIDocument_throws
    (mountRegistry : list (MountInfo (option Addr))) (baseRegistry : Addr) (h : Heap)
    (m : MountInfo (option Addr)) (r raw : Addr) (o : RegistryObj) (l : list Addr)
    (a : Addr) (def : DefinitionObj) :
  m ∈ mountRegistry -> registry m = Some r -> r <> baseRegistry ->
  fst (rawRegistryOf r h) = Normal (Some raw) -> raw <> baseRegistry ->
  registries h !! raw = Some o -> definitions o = Some l -> a ∈ l ->
  objects h !! a = Some def -> unrewritable def ->
  fst (generateOpenAPIDocument mountRegistry baseRegistry h) = TypeError.
Proof.
  intros Hm Hreg Hne Hraw Hne' Ho Hl Ha Hdef Hbad.
  assert (E : fst (forEach mountRegistry (generateMount baseRegistry) h) = TypeError).
  { apply (forEach_throws (grows baseRegistry h) (generateMount baseRegistry)
             mountRegistry m); auto.
    - intros y h1 H1. eapply grows_trans; [exact H1 | apply growing_generateMount].
    - intros h1 (HO & HR & _). rewrite generateMount_eq, Hreg.
      assert (Hraw1 : fst (rawRegistryOf r h1) = Normal (Some raw)).
      { unfold rawRegistryOf in *. cbn [fst] in *. now rewrite (HR r Hne). }
      rewrite Hraw1, (HR raw Hne'), Ho, Hl.
      apply (forEach_throws (grows baseRegistry h1)
               (generateDefinition baseRegistry (path m)) l a); auto.
      + intros y h2 H2. eapply grows_trans; [exact H2 | apply growing_generateDefinition].
      + intros h2 (HO2 & _). apply (generateDefinition_throws _ _ _ _ def); auto.
      + apply grows_refl.
    - apply grows_refl. }
  unfold generateOpenAPIDocument, bind.
  destruct (forEach mountRegistry (generateMount baseRegistry) h) as [[u |] h1];
    cbn in *; [discriminate | reflexivity].
Qed.

Lemma generateOpenAPIDocument_throws_witness :
  fst (generateOpenAPIDocument [mountedAt "/" 1] 0 brokenStore) = TypeError.
Proof.
  apply (generateOpenAPIDocument_throws [mountedAt "/" 1] 0 brokenStore
           (mountedAt "/" 1) 1 1 (mkRegistryObj None (Some [0%nat])) [0%nat] 0
           (mkDefinitionObj "path" None (JObj [("method", JStr "get")]))).
  - left.
  - reflexivity.
  - discriminate.
  - reflexivity.
  - discriminate.
  - reflexivity.
  - reflexivity.
  - left.
  - reflexivity.
  - split; reflexivity.
Defined.

Lemma freshStore_ready : ready 0 freshStore.
Proof.
  split.
  - intros o l a Ho Hl Ha. cbn in Ho. injection Ho as <-. cbn in Hl.
    injection Hl as <-. inversion Ha.
  - eexists _, _. split; reflexivity.
Qed.

Lemma freshStore_mountable m :
  m ∈ [mountedAt "/api" 1] -> mountable 0 m freshStore.
Proof.
  intros Hm r Hreg. apply list_elem_of_singleton in Hm. subst m.
  cbn in Hreg. injection Hreg as <-. split; [discriminate |]. split.
  - intros o l a Ho Hl Ha. cbn in Ho. injection Ho as <-. cbn in Hl.
    injection Hl as <-. apply list_elem_of_singleton in Ha. subst a. cbn. lia.
  - intros o l a def Ho Hl Ha Hdef. cbn in Ho. injection Ho as <-. cbn in Hl.
    injection Hl as <-. apply list_elem_of_singleton in Ha. subst a.
    cbn in Hdef. injection Hdef as <-. reflexivity.
Qed.

(** X18: when [combineRegistries] completes, nothing mounted is missing
from the base: for every definition of every mounted registry (not the base
itself, with addresses of the store and plain methods) the base holds a
definition that the test of [combineRegistries] for it finds, be it one the
base had, one pushed for an earlier definition, or its own. *)
Theorem combineRegistries_covers
    (mountRegistry : list (MountInfo (option Addr))) (baseRegistry : Addr) (h : Heap) :
  ready baseRegistry h ->
  (forall m, m ∈ mountRegistry -> mountable baseRegistry m h) ->
  fst (combineRegistries mountRegistry baseRegistry h) = Normal baseRegistry ->
  forall m, m ∈ mountRegistry ->
    covered baseRegistry m (snd (combineRegistries mountRegistry baseRegistry h)).
Proof.
  intros Hr Hmount Hn m Hm.
  rewrite combineRegistries_forEach in *. cbn [fst snd] in *.
  destruct (outer_loop_covers baseRegistry mountRegistry h Hr) as (_ & _ & Hcov).
  apply Hcov; auto.
  destruct (fst (forEach mountRegistry (combineMount baseRegistry) h)) as [[] |];
    [reflexivity | discriminate].
Qed.

Lemma combineRegistries_covers_witness :
  covered 0 (mountedAt "/api" 1)
    (snd (combineRegistries [mountedAt "/api" 1] 0 freshStore)).
Proof.
  apply (combineRegistries_covers [mountedAt "/api" 1] 0 freshStore).
  - exact freshStore_ready.
  - exact freshStore_mountable.
  - reflexivity.
  - left.
Defined.

(** One step of the inner loop pushes nothing or what it offers for the
definition at hand. *)
Lemma mountStep_pushes baseRegistry path a h :
  ready baseRegistry h ->
  exists x,
    definitionsAt (snd (mountStep baseRegistry path a h)) baseRegistry =
    definitionsAt h baseRegistry ++ x /\
    forall d, d ∈ x -> exists def, objects h !! a = Some def /\ d = offered path def.
Proof.
  intros Hr.
  assert (Hnone : forall c, mountStep baseRegistry path a h = (c, h) ->
            exists x,
              definitionsAt (snd (mountStep baseRegistry path a h)) baseRegistry =
              definitionsAt h baseRegistry ++ x /\
              forall d, d ∈ x ->
                exists def, objects h !! a = Some def /\ d = offered path def).
  { intros c ->. exists []. cbn [snd]. rewrite app_nil_r. split; [reflexivity |].
    intros d Hd. inversion Hd. }
  assert (Hfrag : forall def, objects h !! a = Some def -> offered path def = def ->
            mountStep baseRegistry path a h = addFragment baseRegistry a def h ->
            exists x,
              definitionsAt (snd (mountStep baseRegistry path a h)) baseRegistry =
              definitionsAt h baseRegistry ++ x /\
              forall d, d ∈ x ->
                exists def, objects h !! a = Some def /\ d = offered path def).
  { intros def Hdef Hoff ->. unfold addFragment.
    destruct (test_push_spec baseRegistry h a def (sameFragment def) Hr Hdef)
      as [_ Hcase].
    destruct (someDef (sameFragment def) (definitionsAt h baseRegistry)) as [[|] |];
      destruct Hcase as [_ ->].
    - exists []. rewrite app_nil_r. split; [reflexivity |]. intros d Hd. inversion Hd.
    - exists [def]. split; [reflexivity |]. intros d Hd.
      apply list_elem_of_singleton in Hd. subst d. exists def. now rewrite Hoff.
    - exists []. rewrite app_nil_r. split; [reflexivity |]. intros d Hd. inversion Hd. }
  unfold mountStep, offered in *.
  destruct (String.eqb path "/") eqn:Hroot.
  - destruct (objects h !! a) as [def |] eqn:Ha.
    + apply (Hfrag def); [reflexivity | reflexivity |].
      unfold bind, getDef. now rewrite Ha.
    + apply (Hnone TypeError). unfold bind, getDef. now rewrite Ha.
  - destruct (objects h !! a) as [def |] eqn:Ha.
    2:{ apply (Hnone TypeError). unfold combineDefinition, bind, getDef. now rewrite Ha. }
    destruct (String.eqb (type def) "path") eqn:Hty.
    2:{ apply (Hfrag def); [reflexivity | now rewrite Hty |].
        unfold combineDefinition. unfold bind at 1. unfold getDef at 1.
        now rewrite Ha, Hty. }
    clear Hnone Hfrag.
    rewrite (combineDefinition_path baseRegistry path a h def Ha Hty).
    destruct (routePathOf def) as [routePath |] eqn:Hrp.
    2:{ cbn [snd]. destruct (ready_alloc baseRegistry h def Hr) as [_ ->].
        exists []. rewrite app_nil_r. split; [reflexivity |]. intros d Hd. inversion Hd. }
    set (adj := adjustedFor path def routePath).
    set (h2 := mkHeap (<[length (objects h) := adj]> (objects h ++ [def])) (registries h)).
    destruct (ready_alloc_set baseRegistry h def adj Hr) as [Hr2 Hd2].
    fold h2 in Hr2, Hd2.
    assert (Hadj : objects h2 !! length (objects h) = Some adj) by apply alloc_set_last.
    destruct (test_push_spec baseRegistry h2 (length (objects h)) adj (samePath adj)
                Hr2 Hadj) as [_ Hcase].
    rewrite Hd2 in Hcase.
    destruct (someDef (samePath adj) (definitionsAt h baseRegistry)) as [[|] |];
      destruct Hcase as [_ ->].
    + exists []. rewrite app_nil_r. split; [reflexivity |]. intros d Hd. inversion Hd.
    + exists [adj]. split; [reflexivity |]. intros d Hd.
      apply list_elem_of_singleton in Hd. subst d. exists def. split; [reflexivity |].
      now rewrite Hty, Hrp.
    + exists []. rewrite app_nil_r. split; [reflexivity |]. intros d Hd. inversion Hd.
Qed.

(** X19: [combineRegistries] invents nothing: every definition of the base
after the composition is one the base had or one offered for a definition
of a mounted registry (the definition itself at the root and for the
fragments, its rewritten copy for a path definition elsewhere), when the
mounted registries are not the base and hold addresses of the store. This
holds also for a run that throws. *)
Theorem combineRegistries_sound
    (mountRegistry : list (MountInfo (option Addr))) (baseRegistry : Addr) (h : Heap) :
  ready baseRegistry h ->
  apart baseRegistry mountRegistry h ->
  forall d,
    d ∈ definitionsAt (snd (combineRegistries mountRegistry baseRegistry h)) baseRegistry ->
    d ∈ definitionsAt h baseRegistry \/ fromLedger mountRegistry h d.
Proof.
  intros Hr Hapart.
  set (J := fun h' => ready baseRegistry h' /\ grows baseRegistry h h' /\
                      forall d, d ∈ definitionsAt h' baseRegistry ->
                        d ∈ definitionsAt h baseRegistry \/ fromLedger mountRegistry h d).
  assert (K : keeps J (forEach mountRegistry (combineMount baseRegistry))).
  { apply keeps_forEach. intros m Hm h1 (Hr1 & Hg1 & Hd1).
    rewrite combineMount_eq.
    destruct (registry m) as [r |] eqn:Hreg; [| now split].
    destruct (registries h1 !! r) as [o |] eqn:Ho; [| now split].
    destruct (definitions o) as [l |] eqn:Hl; [| now split].
    destruct (Hapart m r Hm Hreg) as [Hne Hclosed].
    assert (Ho0 : registries h !! r = Some o).
    { destruct Hg1 as (_ & HR & _). now rewrite <- (HR r Hne). }
    apply (keeps_forEach J l (mountStep baseRegistry (path m))); [| now split].
    intros a Ha h2 (Hr2 & Hg2 & Hd2).
    destruct (mountStep_spec baseRegistry (path m) a h2 Hr2) as (M1 & _).
    destruct (mountStep_pushes baseRegistry (path m) a h2 Hr2) as (x & Ex & Hx).
    split; [exact M1 |]. split.
    - eapply grows_trans; [exact Hg2 | apply growing_mountStep].
    - intros d Hd. rewrite Ex in Hd. apply elem_of_app in Hd as [Hd | Hd].
      + now apply Hd2.
      + right. destruct (Hx d Hd) as (def & Hdef & ->).
        exists m, r, o, l, a, def. repeat split; auto.
        destruct (lookup_lt_is_Some_2 (objects h) a) as [d0 Hd0].
        { exact (Hclosed o l a Ho0 Hl Ha). }
        destruct Hg2 as (HO & _). pose proof (HO a d0 Hd0). congruence. }
  intros d Hd. rewrite combineRegistries_forEach in Hd. cbn [snd] in Hd.
  destruct (K h) as (_ & _ & Hall).
  - split; [exact Hr |]. split; [apply grows_refl | auto].
  - now apply Hall.
Qed.

Lemma freshStore_apart : apart 0 [mountedAt "/api" 1] freshStore.
Proof.
  intros m r Hm Hreg. destruct (freshStore_mountable m Hm r Hreg) as (H1 & H2 & _).
  now split.
Qed.

Lemma combineRegistries_sound_witness :
  pathDefinition "get" "/api/users" [("summary", JStr "List users")]
    ∈ definitionsAt freshStore 0 \/
  fromLedger [mountedAt "/api" 1] freshStore
    (pathDefinition "get" "/api/users" [("summary", JStr "List users")]).
Proof.
  apply (combineRegistries_sound [mountedAt "/api" 1] 0 freshStore).
  - exact freshStore_ready.
  - exact freshStore_apart.
  - left.
Defined.

(** *** What the [generateOpenAPIDocument] override appends *)

Lemma routePathOf_object def routePath :
  routePathOf def = Normal routePath -> exists members, schema def = JObj members.
Proof.
  unfold routePathOf. destruct (schema def); cbn; try discriminate. eauto.
Qed.

Lemma generateDefinition_pushes baseRegistry path a h def :
  ready baseRegistry h -> objects h !! a = Some def -> rewritable def ->
  fst (generateDefinition baseRegistry path a h) = Normal tt /\
  ready baseRegistry (snd (generateDefinition baseRegistry path a h)) /\
  definitionsAt (snd (generateDefinition baseRegistry path a h)) baseRegistry =
  definitionsAt h baseRegistry ++ [generated path def].
Proof.
  intros Hr Ha [Hty [routePath Hrp]].
  destruct (routePathOf_object def routePath Hrp) as [members Hs].
  assert (Hgen : generated path def = adjustedFor path def routePath).
  { unfold generated. now rewrite Hrp. }
  assert (E : generateDefinition baseRegistry path a h =
              push baseRegistry (length (objects h))
                (mkHeap (<[length (objects h) := adjustedFor path def routePath]>
                           (objects h ++ [def])) (registries h))).
  { unfold generateDefinition. unfold bind at 1. unfold getDef at 1.
    rewrite Ha, Hty.
    unfold bind at 1. unfold allocDef.
    unfold bind at 1. unfold lift at 1. rewrite Hrp.
    unfold bind at 1. rewrite getDef_last.
    unfold bind at 1. unfold lift at 1. unfold assignMember. rewrite Hs.
    unfold bind at 1. unfold setDef. cbn [objects registries fst snd].
    unfold adjustedFor. now rewrite Hs. }
  rewrite E, Hgen.
  set (adj := adjustedFor path def routePath).
  set (h2 := mkHeap (<[length (objects h) := adj]> (objects h ++ [def])) (registries h)).
  destruct (ready_alloc_set baseRegistry h def adj Hr) as [Hr2 Hd2].
  fold h2 in Hr2, Hd2.
  assert (Hadj : objects h2 !! length (objects h) = Some adj) by apply alloc_set_last.
  destruct (push_ready baseRegistry h2 (length (objects h)) adj Hr2 Hadj) as (P1 & P2 & P3).
  rewrite Hd2 in P3. auto.
Qed.

Lemma omap_lookup_grows (objs objs' : list DefinitionObj) (l : list Addr) :
  (forall a, a ∈ l -> is_Some (objs !! a)) ->
  (forall a d, objs !! a = Some d -> objs' !! a = Some d) ->
  omap (fun a => objs' !! a) l = omap (fun a => objs !! a) l.
Proof.
  intros Hin Hgrow. induction l as [| a l IH]; [reflexivity |].
  cbn [omap list_omap]. destruct (Hin a) as [d Hd]; [left |].
  rewrite (Hgrow a d Hd), Hd. f_equal. apply IH. intros b Hb. apply Hin. now right.
Qed.

Lemma generate_loop baseRegistry path l :
  forall h, ready baseRegistry h ->
    (forall a, a ∈ l -> exists def, objects h !! a = Some def /\ rewritable def) ->
    fst (forEach l (generateDefinition baseRegistry path) h) = Normal tt /\
    ready baseRegistry (snd (forEach l (generateDefinition baseRegistry path) h)) /\
    grows baseRegistry h (snd (forEach l (generateDefinition baseRegistry path) h)) /\
    definitionsAt (snd (forEach l (generateDefinition baseRegistry path) h)) baseRegistry =
    definitionsAt h baseRegistry ++
      map (generated path) (omap (fun a => objects h !! a) l).
Proof.
  induction l as [| a l IH]; intros h Hr Hall.
  - cbn. rewrite app_nil_r. split; [reflexivity |]. split; [exact Hr |].
    split; [apply grows_refl | reflexivity].
  - destruct (Hall a) as (def & Ha & Hdef); [left |].
    destruct (generateDefinition_pushes baseRegistry path a h def Hr Ha Hdef)
      as (S1 & S2 & S3).
    pose proof (growing_generateDefinition baseRegistry path a h) as G.
    cbn [forEach]. unfold bind.
    destruct (generateDefinition baseRegistry path a h) as [[[] |] h1];
      cbn [fst snd] in *; [| discriminate].
    assert (Hall1 : forall b, b ∈ l ->
              exists d, objects h1 !! b = Some d /\ rewritable d).
    { intros b Hb. destruct (Hall b) as (d & Hd & Hw); [now right |].
      exists d. split; [| exact Hw]. now apply G. }
    destruct (IH h1 S2 Hall1) as (I1 & I2 & I3 & I4).
    split; [exact I1 |]. split; [exact I2 |].
    split; [now apply (grows_trans _ h h1) |].
    rewrite I4, S3. cbn [omap list_omap]. rewrite Ha. cbn [map].
    rewrite <- app_assoc. cbn [app]. do 3 f_equal.
    apply omap_lookup_grows.
    + intros b Hb. destruct (Hall b) as (d & Hd & _); [now right | eauto].
    + apply G.
Qed.

(** X20: the [generateOpenAPIDocument] override does not look at the base
for path definitions: over a ledger whose raw registries hold path
definitions with string paths only, the composition completes and the base
has what it had, followed by one rewritten copy for every definition of
every entry, in the order of the ledger and of the registries, whether or
not the base has a definition for that method and path. *)
Theorem generateOpenAPIDocument_appends
    (mountRegistry : list (MountInfo (option Addr))) (baseRegistry : Addr) (h : Heap) :
  ready baseRegistry h ->
  (forall m, m ∈ mountRegistry -> pathsOnly baseRegistry h m) ->
  fst (generateOpenAPIDocument mountRegistry baseRegistry h) = Normal baseRegistry /\
  definitionsAt (snd (generateOpenAPIDocument mountRegistry baseRegistry h)) baseRegistry =
  definitionsAt h baseRegistry ++
    concat (map (fun m => map (generated (path m)) (rawDefinitions h m)) mountRegistry).
Proof.
  intros Hr Hall.
  assert (L : forall ms h1,
            (forall m, m ∈ ms -> m ∈ mountRegistry) ->
            ready baseRegistry h1 -> grows baseRegistry h h1 ->
            fst (forEach ms (generateMount baseRegistry) h1) = Normal tt /\
            definitionsAt (snd (forEach ms (generateMount baseRegistry) h1)) baseRegistry =
            definitionsAt h1 baseRegistry ++
              concat (map (fun m => map (generated (path m)) (rawDefinitions h m)) ms)).
  { induction ms as [| m ms IH]; intros h1 Hsub Hr1 Hg1.
    - cbn. now rewrite app_nil_r.
    - assert (Hm : m ∈ mountRegistry) by (apply Hsub; left).
      assert (Hstep : fst (generateMount baseRegistry m h1) = Normal tt /\
                      ready baseRegistry (snd (generateMount baseRegistry m h1)) /\
                      definitionsAt (snd (generateMount baseRegistry m h1)) baseRegistry =
                      definitionsAt h1 baseRegistry ++
                        map (generated (path m)) (rawDefinitions h m)).
      { rewrite generateMount_eq. unfold rawDefinitions.
        destruct (registry m) as [r |] eqn:Hreg;
          [| cbn; rewrite app_nil_r; auto].
        destruct Hg1 as (HO & HR & HB).
        destruct (fst (rawRegistryOf r h)) as [[raw |] |] eqn:Hraw.
        - destruct (Hall m Hm r raw Hreg Hraw) as (Hne & Hne' & Hdefs).
          assert (Hraw1 : fst (rawRegistryOf r h1) = Normal (Some raw)).
          { unfold rawRegistryOf in *. cbn [fst] in *. now rewrite (HR r Hne). }
          rewrite Hraw1, (HR raw Hne'). unfold definitionsAt at 3.
          destruct (registries h !! raw) as [o |] eqn:Ho;
            [| cbn; rewrite app_nil_r; auto].
          destruct (definitions o) as [l |] eqn:Hl;
            [| cbn; rewrite app_nil_r; auto].
          destruct (generate_loop baseRegistry (path m) l h1 Hr1) as (G1 & G2 & _ & G4).
          { intros a Ha. destruct (Hdefs o l a eq_refl Hl Ha) as (def & Hdef & Hw).
            exists def. split; [now apply HO | exact Hw]. }
          split; [exact G1 |]. split; [exact G2 |].
          rewrite G4. do 2 f_equal. apply omap_lookup_grows; [| exact HO].
          intros a Ha. destruct (Hdefs o l a eq_refl Hl Ha) as (def & Hdef & _). eauto.
        - assert (Hraw1 : fst (rawRegistryOf r h1) = Normal None).
          { unfold rawRegistryOf in *. cbn [fst] in *.
            destruct (decide (r = baseRegistry)) as [-> | Hne].
            - destruct (registries h !! baseRegistry) as [o |] eqn:Ho; [| discriminate].
              destruct (HB o eq_refl) as [added ->]. exact Hraw.
            - now rewrite (HR r Hne). }
          rewrite Hraw1. cbn. rewrite app_nil_r. auto.
        - discriminate. }
      destruct Hstep as (S1 & S2 & S3).
      pose proof (growing_generateMount baseRegistry m h1) as G.
      cbn [forEach]. unfold bind.
      destruct (generateMount baseRegistry m h1) as [[[] |] h2];
        cbn [fst snd] in *; [| discriminate].
      destruct (IH h2) as [I1 I2]; auto.
      { intros m' Hm'. apply Hsub. now right. }
      { now apply (grows_trans _ h h1). }
      split; [exact I1 |]. rewrite I2, S3. cbn [map concat].
      now rewrite <- app_assoc. }
  destruct (L mountRegistry h) as [L1 L2]; auto using grows_refl.
  unfold generateOpenAPIDocument, bind.
  destruct (forEach mountRegistry (generateMount baseRegistry) h) as [[[] |] h1];
    cbn [fst snd] in *; [auto | discriminate].
Qed.

Lemma takenStore_ready : ready 0 takenStore.
Proof.
  split.
  - intros o l a Ho Hl Ha. cbn in Ho. injection Ho as <-. cbn in Hl.
    injection Hl as <-. apply list_elem_of_singleton in Ha. subst a. cbn. lia.
  - eexists _, _. split; reflexivity.
Qed.

Lemma takenStore_pathsOnly m :
  m ∈ [mountedAt "/api" 1] -> pathsOnly 0 takenStore m.
Proof.
  intros Hm r raw Hreg Hraw. apply list_elem_of_singleton in Hm. subst m.
  cbn in Hreg. injection Hreg as <-. cbn in Hraw. injection Hraw as <-.
  split; [discriminate |]. split; [discriminate |].
  intros o l a Ho Hl Ha. cbn in Ho. injection Ho as <-. cbn in Hl.
  injection Hl as <-. apply list_elem_of_singleton in Ha. subst a.
  exists usersRoute. split; [reflexivity |]. split; [reflexivity |].
  now exists "/users".
Qed.

Lemma generateOpenAPIDocument_appends_witness :
  definitionsAt (snd (generateOpenAPIDocument [mountedAt "/api" 1] 0 takenStore)) 0 =
  [pathDefinition "get" "/api/users" [("summary", JStr "Base")];
   pathDefinition "get" "/api/users" [("summary", JStr "List users")]].
Proof.
  destruct (generateOpenAPIDocument_appends [mountedAt "/api" 1] 0 takenStore) as [_ H].
  - exact takenStore_ready.
  - exact takenStore_pathsOnly.
  - rewrite H. reflexivity.
Defined.

(** *** Mounts at the root share the definition objects *)

Lemma push_array baseRegistry a h :
  objects (snd (push baseRegistry a h)) = objects h /\
  (forall r, r <> baseRegistry ->
     registries (snd (push baseRegistry a h)) !! r = registries h !! r) /\
  (forall x, x ∈ arrayOf (snd (push baseRegistry a h)) baseRegistry ->
     x ∈ arrayOf h baseRegistry \/ x = a).
Proof.
  unfold push, arrayOf.
  destruct (registries h !! baseRegistry) as [o |] eqn:Ho.
  - destruct (definitions o) as [l |] eqn:Hl; cbn [snd].
    + split; [reflexivity |]. split.
      * intros r Hr. cbn. now rewrite list_lookup_insert_ne.
      * intros x. cbn. rewrite list_lookup_insert_eq by now apply lookup_lt_Some in Ho.
        cbn. rewrite elem_of_app, list_elem_of_singleton. tauto.
    + rewrite Ho, Hl. split; [reflexivity |]. split; auto.
  - cbn [snd]. rewrite Ho. split; [reflexivity |]. split; auto.
Qed.

(** X26: at the root [combineRegistries] copies nothing: over a ledger of
mounts at the root no definition object is allocated or changed, and every
address in the definitions array of the base afterwards was there before
or is in the definitions array of a mounted registry, so that the base and
the routers hold the very same definition objects. *)
Theorem combineRegistries_root_shares
    (mountRegistry : list (MountInfo (option Addr))) (baseRegistry : Addr) (h : Heap) :
  (forall m, m ∈ mountRegistry -> path m = "/") ->
  objects (snd (combineRegistries mountRegistry baseRegistry h)) = objects h /\
  forall x,
    x ∈ arrayOf (snd (combineRegistries mountRegistry baseRegistry h)) baseRegistry ->
    x ∈ arrayOf h baseRegistry \/
    exists m r, m ∈ mountRegistry /\ registry m = Some r /\ x ∈ arrayOf h r.
Proof.
  intros Hroot.
  set (P := fun x : Addr =>
              x ∈ arrayOf h baseRegistry \/
              exists m r, m ∈ mountRegistry /\ registry m = Some r /\ x ∈ arrayOf h r).
  set (J := fun h1 => objects h1 = objects h /\
                      (forall r, r <> baseRegistry ->
                         registries h1 !! r = registries h !! r) /\
                      forall x, x ∈ arrayOf h1 baseRegistry -> P x).
  assert (K : keeps J (forEach mountRegistry (combineMount baseRegistry))).
  { apply keeps_forEach. intros m Hm h1 (HO1 & HR1 & HP1).
    rewrite combineMount_eq.
    destruct (registry m) as [r |] eqn:Hreg; [| now split].
    destruct (registries h1 !! r) as [o |] eqn:Ho; [| now split].
    destruct (definitions o) as [l |] eqn:Hl; [| now split].
    assert (Hl_P : forall a, a ∈ l -> P a).
    { intros a Ha. destruct (decide (r = baseRegistry)) as [-> | Hne].
      - apply HP1. unfold arrayOf. now rewrite Ho, Hl.
      - right. exists m, r. split; [exact Hm |]. split; [exact Hreg |].
        unfold arrayOf. now rewrite <- (HR1 r Hne), Ho, Hl. }
    apply (keeps_forEach J l (mountStep baseRegistry (path m))); [| now split].
    intros a Ha h2 (HO2 & HR2 & HP2).
    unfold mountStep. rewrite (Hroot m Hm). cbn [String.eqb Ascii.eqb Bool.eqb].
    unfold bind at 1. unfold getDef.
    destruct (objects h2 !! a) as [def |]; [| now split].
    unfold addFragment, bind.
    pose proof (some_heap baseRegistry (sameFragment def) h2) as Hs.
    destruct (some baseRegistry (sameFragment def) h2) as [[found |] h3];
      cbn [fst snd] in *; subst h3; [| now split].
    destruct (negb found); [| now split].
    destruct (push_array baseRegistry a h2) as (Q1 & Q2 & Q3).
    split; [congruence |]. split.
    - intros r' Hr'. now rewrite Q2, HR2.
    - intros x Hx. destruct (Q3 x Hx) as [Hx' | ->]; auto. }
  rewrite combineRegistries_forEach. cbn [snd].
  destruct (K h) as (K1 & _ & K3).
  - split; [reflexivity |]. split; [auto |]. intros x Hx. now left.
  - split; [exact K1 | exact K3].
Qed.

Lemma combineRegistries_root_shares_witness :
  objects (snd (combineRegistries [mountedAt "/" 1] 0 rootStore)) = objects rootStore /\
  arrayOf (snd (combineRegistries [mountedAt "/" 1] 0 rootStore)) 0 = [0%nat; 1%nat].
Proof.
  destruct (combineRegistries_root_shares [mountedAt "/" 1] 0 rootStore) as [H _].
  - intros m Hm. apply list_elem_of_singleton in Hm. now subst m.
  - split; [exact H | reflexivity].
Defined.

(** *** Witnesses of the properties of [combineRegistries] *)

Lemma combineRegistries_keeps_invariant_witness :
  wellKept 0 (snd (combineRegistries [mountedAt "/api" 1] 0 takenStore)).
Proof.
  apply (combineRegistries_keeps_invariant [mountedAt "/api" 1] 0 takenStore).
  - intros m Hm. apply list_elem_of_singleton in Hm. subst m. discriminate.
  - split; [apply takenStore_ready | reflexivity].
Defined.

Lemma combineDefinition_first_writer_wins_witness :
  definitionsAt (snd (combineDefinition 0 "/api" 1 takenStore)) 0 =
  definitionsAt takenStore 0.
Proof.
  destruct (combineDefinition_first_writer_wins 0 "/api" 1 takenStore usersRoute "/users")
    as [_ H].
  - exact takenStore_ready.
  - reflexivity.
  - reflexivity.
  - reflexivity.
  - exact H.
Defined.

End CompositionMore.
